(** * saulify: rule-driven article extraction

    A shallow embedding of [saulify/scrapers/cascade.py],
    [saulify/scrapers/instapaper.py] and [saulify/sitespec.py].

    Python values are modelled as follows.
    - Text is [string], a sequence of characters with codes 0 to 255: the
      bytes of a [str], or the code points of a [unicode] string, which the
      model takes below U+0100. [partition], [strip], [replace] and the [in]
      operator are written out below; they do not look at the codes. Where
      the code does, in [strip()] without argument and in the classes of
      [re], the model follows Python 2: the [str] method knows the ASCII
      blanks, the [unicode] method and the classes compiled with
      [re.UNICODE] follow the Unicode database.
    - A [dict] is a [gmap string _]; a dict is falsy exactly when it is [∅].
    - A raised exception is the [Raised] case of [result]; an [except C]
      clause catches the exceptions whose class is [C] or derives from it.
    - An lxml element is a [node] carrying a unique identity, its tag, its
      attributes, its [text], its children and its [tail]; in-place mutation
      is state passing over the document the element lives in. *)

From Stdlib Require Import String Ascii List ZArith QArith Lia Sorted.
From Equations Require Import Equations.
From stdpp Require Import gmap strings list fin_maps.

(* String concatenation unfolds on a constructor, as list concatenation does. *)
#[local] Arguments String.append !s1 s2 : simpl nomatch.

(** ** Exceptions *)

(** The part of the Python 2 exception hierarchy the code can meet. *)
Inductive exn_class : Type :=
  | IOError
  | UnicodeDecodeError
  | TypeError
  | AssertionError
  | ParserError
  | XPathEvalError
  | AttributeError
  | KeyError
  | PlainException
  | KeyboardInterrupt
  | SystemExit.

Record exn : Type := MkExn { exn_type : exn_class; exn_message : string }.

(** [isinstance(e, IOError)]. *)
Definition is_IOError (e : exn) : bool :=
  match exn_type e with IOError => true | _ => false end.

(** [isinstance(e, Exception)]: everything but the direct children of
    [BaseException]. *)
Definition is_Exception (e : exn) : bool :=
  match exn_type e with KeyboardInterrupt | SystemExit => false | _ => true end.

Inductive result (A : Type) : Type :=
  | Ok (a : A)
  | Raised (e : exn).
Arguments Ok {A} a.
Arguments Raised {A} e.

(** Sequencing: the first exception raised ends the computation. *)
Definition bind {A B : Type} (r : result A) (k : A → result B) : result B :=
  match r with
  | Ok a => k a
  | Raised e => Raised e
  end.

Notation "x ⇐ r ; k" := (bind r (λ x, k))
  (at level 20, r at level 100, k at level 200, only parsing).

(** ** Python string operations *)

Module Str.

(** [s.partition(sep)[2]] and [s.partition(sep)[0]] for a one-character
    separator: the text after, and before, the first occurrence. *)
Fixpoint partition_after (sep : ascii) (s : string) : string :=
  match s with
  | "" => ""
  | String c s' => if Ascii.eqb c sep then s' else partition_after sep s'
  end.

Fixpoint partition_before (sep : ascii) (s : string) : string :=
  match s with
  | "" => ""
  | String c s' =>
      if Ascii.eqb c sep then "" else String c (partition_before sep s')
  end.

Fixpoint has_char (sep : ascii) (s : string) : bool :=
  match s with
  | "" => false
  | String c s' => Ascii.eqb c sep || has_char sep s'
  end.

(** [s.partition(sep)] *)
Definition partition (s : string) (sep : ascii) : string * string * string :=
  if has_char sep s
  then (partition_before sep s, String sep "", partition_after sep s)
  else (s, "", "").

(** [s.startswith(p)] *)
Fixpoint startswith (p s : string) : bool :=
  match p, s with
  | "", _ => true
  | String a p', String b s' => Ascii.eqb a b && startswith p' s'
  | String _ _, "" => false
  end.

(** [sub in s] *)
Fixpoint contains (s sub : string) : bool :=
  startswith sub s ||
  match s with
  | "" => false
  | String _ s' => contains s' sub
  end.

(** [s.replace(old, new)] for a non-empty [old]: scan left to right; at a
    match emit [new] and skip the matched characters, which are never
    looked at again. [skip] counts the characters of the current match
    still to be dropped. *)
Fixpoint replace_scan (old new : string) (skip : nat) (s : string) : string :=
  match s with
  | "" => ""
  | String c s' =>
      match skip with
      | S k => replace_scan old new k s'
      | O =>
          if startswith old s
          then new +:+ replace_scan old new (String.length old - 1) s'
          else String c (replace_scan old new 0 s')
      end
  end.

(** With an empty [old], Python inserts [new] before every character and
    at the end. *)
Fixpoint replace_empty (new : string) (s : string) : string :=
  match s with
  | "" => new
  | String c s' => new +:+ String c (replace_empty new s')
  end.

Definition replace (s old new : string) : string :=
  match old with
  | "" => replace_empty new s
  | _ => replace_scan old new 0 s
  end.

Definition in_chars (chars : string) (c : ascii) : bool :=
  has_char c chars.

Fixpoint lstrip (chars : string) (s : string) : string :=
  match s with
  | "" => ""
  | String c s' => if in_chars chars c then lstrip chars s' else s
  end.

(** [rstrip] keeps a character when it is not in [chars] or when something
    is kept after it. *)
Fixpoint rstrip (chars : string) (s : string) : string :=
  match s with
  | "" => ""
  | String c s' =>
      match rstrip chars s' with
      | "" => if in_chars chars c then "" else String c ""
      | r => String c r
      end
  end.

(** [s.strip(chars)] *)
Definition strip (chars : string) (s : string) : string :=
  rstrip chars (lstrip chars s).

(** The characters with the given codes. *)
Definition of_codes (codes : list nat) : string :=
  fold_right (λ n s, String (ascii_of_nat n) s) "" codes.

(** Unicode whitespace below U+0100, as [Py_UNICODE_ISSPACE] has it: tab,
    newline, vertical tab, form feed, carriage return (9 to 13), the
    information separators U+001C to U+001F, space, next line U+0085 and
    no-break space U+00A0. It is the class [\s] of a pattern compiled with
    [re.UNICODE] and what [u.strip()] removes from a unicode string. *)
Definition is_space (c : ascii) : bool :=
  let n := nat_of_ascii c in
  ((9 <=? n)%nat && (n <=? 13)%nat) || ((28 <=? n)%nat && (n <=? 32)%nat) ||
  (n =? 133)%nat || (n =? 160)%nat.

Definition whitespace : string :=
  of_codes [9; 10; 11; 12; 13; 28; 29; 30; 31; 32; 133; 160].

(** What [s.strip()] removes from a byte string: the blanks of C's
    [isspace]. *)
Definition ascii_whitespace : string := of_codes [9; 10; 11; 12; 13; 32].

(** [len(re.findall(cls, s))] for a one-character class. *)
Fixpoint count (cls : ascii → bool) (s : string) : nat :=
  match s with
  | "" => 0
  | String c s' => (if cls c then 1 else 0) + count cls s'
  end.

(** No character of [s] has a code above 127. *)
Definition is_ascii (s : string) : bool :=
  (count (λ c, (128 <=? nat_of_ascii c)%nat) s =? 0)%nat.

(** [sep.join(l)] *)
Fixpoint join (sep : string) (l : list string) : string :=
  match l with
  | [] => ""
  | [x] => x
  | x :: rest => x +:+ sep +:+ join sep rest
  end.

End Str.

(** ** Rule sets ([saulify.sitespec.load_rules] format)

    A rule set is a dict from directive names to values: a list of strings
    for the list-type directives, a list of pairs for [find_replace], and a
    boolean for the flags [lxml_clean] and [prune]. *)

Inductive directive : Type :=
  | Values (l : list string)
  | Pairs (l : list (string * string))
  | Flag (b : bool).

Abbreviation rules := (gmap string directive).

(** [bool(d)] for a dict: it has at least one key. *)
Definition dict_truthy {V : Type} (d : gmap string V) : bool :=
  negb (size d =? 0)%nat.

(** ** cascade.py: the superdomain walk *)

(** [os.path.join(a, b)]: an absolute second component discards the first. *)
Definition path_join (a b : string) : string :=
  if Str.startswith "/" b then b else a +:+ "/" +:+ b.

Section Resolver.

(** The file system and the rule parser, as [load_sitespec] uses them.
    [io_open] raises when the file cannot be opened; [load_rules], whose
    source is not at hand, reads and parses an open file, and may raise as
    well. *)
Context {file : Type}.
Variable io_open : string → result file.
Variable load_rules : file → result rules.

Definition load_sitespec (hostname : string) : result rules :=
  let fpath := path_join "sitespecs" (hostname +:+ ".txt") in
  f ⇐ io_open fpath; load_rules f.

(** The [try ... except IOError: d = {}] block. *)
Definition load_or_empty (hostname : string) : result rules :=
  match load_sitespec hostname with
  | Ok d => Ok d
  | Raised e => if is_IOError e then Ok ∅ else Raised e
  end.

(** [hostname.partition(".")[2]] *)
Definition super_domain_of (hostname : string) : string :=
  (Str.partition hostname ".").2.

Equations? load_superdomains (hostname : string) : result (option rules)
  by wf (String.length hostname) lt :=
  load_superdomains hostname :=
    match load_or_empty hostname with
    | Raised e => Raised e
    | Ok d =>
        if dict_truthy d then Ok (Some d)
        else
          match string_dec (super_domain_of hostname) "" with
          | left _ => Ok None
          | right Hne => load_superdomains (super_domain_of hostname)
          end
    end.
Proof.
  clear load_superdomains. revert Hne.
  unfold super_domain_of, Str.partition.
  destruct (Str.has_char "." hostname) eqn:Hdot; simpl; [|done].
  intros _.
  induction hostname as [|c s IH]; simpl in *; [done|].
  destruct (Ascii.eqb c "."); simpl in *; [lia|].
  specialize (IH Hdot). lia.
Qed.

(** What the walk does when the lookup for [hostname] gives nothing. *)
Definition next_superdomain (hostname : string) : result (option rules) :=
  if String.eqb (super_domain_of hostname) "" then Ok None
  else load_superdomains (super_domain_of hostname).

(** A lookup that gives the walk nothing: the read fails with an [IOError]
    (no file for the key), or the rule set that loads is empty. *)
Definition no_rules (k : string) : Prop :=
  (∃ e, load_sitespec k = Raised e ∧ is_IOError e = true) ∨
  load_sitespec k = Ok ∅.

End Resolver.

(** The hostname chain: the hostname, then every non-empty remainder left
    after dropping leading labels, longest first. *)
Fixpoint dot_suffixes (s : string) : list string :=
  match s with
  | "" => []
  | String c s' =>
      if Ascii.eqb c "."
      then (if String.eqb s' "" then [] else s' :: dot_suffixes s')
      else dot_suffixes s'
  end.

Definition hostname_chain (hostname : string) : list string :=
  hostname :: dot_suffixes hostname.

(** [k] is [h], or a non-empty part of [h] that starts right after a dot. *)
Definition label_suffix (h k : string) : Prop :=
  k = h ∨ (k ≠ "" ∧ ∃ pre, h = pre +:+ String "." k).

(** *** A sample rule-set directory

    Files exist for [example.com], [com], [blog.example.com] (no directive in
    it) and [cdn.example.com] (its bytes cannot be decoded). *)

Definition no_such_file : exn := MkExn IOError "No such file or directory".
Definition undecodable : exn := MkExn UnicodeDecodeError "invalid start byte".

Definition example_com_rules : rules := {[ "strip" := Values ["//div[@id='ad']"] ]}.
Definition com_rules : rules := {[ "prune" := Flag false ]}.

Inductive sample_file : Type :=
  | FileExampleCom
  | FileCom
  | FileBlank
  | FileBadBytes.

Definition sample_open (fpath : string) : result sample_file :=
  if String.eqb fpath "sitespecs/example.com.txt" then Ok FileExampleCom
  else if String.eqb fpath "sitespecs/com.txt" then Ok FileCom
  else if String.eqb fpath "sitespecs/blog.example.com.txt" then Ok FileBlank
  else if String.eqb fpath "sitespecs/cdn.example.com.txt" then Ok FileBadBytes
  else Raised no_such_file.

Definition sample_load_rules (f : sample_file) : result rules :=
  match f with
  | FileExampleCom => Ok example_com_rules
  | FileCom => Ok com_rules
  | FileBlank => Ok ∅
  | FileBadBytes => Raised undecodable
  end.

(** The same directory with the undecodable file removed. *)
Definition sample_open_without_cdn (fpath : string) : result sample_file :=
  if String.eqb fpath "sitespecs/cdn.example.com.txt" then Raised no_such_file
  else sample_open fpath.

(** ** cascade.py: merging the scraper's fields into the baseline *)

(** The values a result dict holds. *)
Inductive pyval : Type :=
  | PNone
  | PStr (s : string)
  | PList (l : list string).

(** [bool(v)] *)
Definition truthy (v : pyval) : bool :=
  match v with
  | PNone => false
  | PStr s => negb (String.eqb s "")
  | PList l => negb (length l =? 0)%nat
  end.

(** [newspaper.clean_source(url, content) or {"html": content}] *)
Definition baseline (extracted : option (gmap string pyval)) (content : string)
  : gmap string pyval :=
  match extracted with
  | Some d => if dict_truthy d then d else {[ "html" := PStr content ]}
  | None => {[ "html" := PStr content ]}
  end.

(** [for k, v in override.items(): if v: result[k] = v] *)
Definition merge_fields (result override : gmap string pyval)
  : gmap string pyval :=
  map_fold (λ k v result, if truthy v then <[k:=v]> result else result)
    result override.

(** ** sitespec.py: running a recorded test case *)

Record TestCase : Type := MkTestCase { url : string; fragments : list string }.

(** [d[key]] *)
Definition subscript (d : gmap string pyval) (key : string) : result pyval :=
  match d !! key with
  | Some v => Ok v
  | None => Raised (MkExn KeyError key)
  end.

(** [s not in text], for the values [text] can be. *)
Definition not_in (s : string) (text : pyval) : result bool :=
  match text with
  | PStr t => Ok (negb (Str.contains t s))
  | PList l => Ok (negb (bool_decide (s ∈ l)))
  | PNone => Raised (MkExn TypeError "argument of type 'NoneType' is not iterable")
  end.

Fixpoint missing_fragments (fragments : list string) (text : pyval)
  : result (list string) :=
  match fragments with
  | [] => Ok []
  | s :: rest =>
      absent ⇐ not_in s text;
      missing ⇐ missing_fragments rest text;
      Ok (if absent then s :: missing else missing)
  end.

Definition newline : string := String (ascii_of_nat 10) "".

Section Runner.

(** [saulify.clean.clean_content], whose source is not at hand: fetches and
    extracts the page of a url. *)
Variable clean_content : string → result (gmap string pyval).

(** [TestCase.run]: what is written to [sys.stderr], and what is returned or
    raised. An exception raised in the [else] block is not caught. *)
Definition run (self : TestCase) : string * result (gmap string pyval) :=
  match d ⇐ clean_content (url self); subscript d "plaintext" with
  | Raised e =>
      if is_Exception e then
        ("Exception on " +:+ url self +:+ " :" +:+ newline +:+ exn_message e,
         Ok {[ "url" := PStr (url self);
               "status" := PStr "EXCEPTION";
               "message" := PStr "e.message" ]})
      else ("", Raised e)
  | Ok output =>
      ("",
       missing ⇐ missing_fragments (fragments self) output;
       Ok {[ "url" := PStr (url self);
             "status" := PStr "OK";
             "missing_fragments" := PList missing ]})
  end.

End Runner.

Definition boom : exn := MkExn PlainException "boom".

Definition failing_case : TestCase :=
  MkTestCase "http://example.com/a" ["Hello"].

(** ** instapaper.py: the [find_string] / [replace_string] directives *)

(** [self.spec[key]] for a list directive, a pair directive and a flag. A
    key the rule set does not have reads as the empty list. *)
Definition spec_values (spec : rules) (key : string) : list string :=
  match spec !! key with
  | Some (Values l) => l
  | _ => []
  end.

Definition spec_pairs (spec : rules) (key : string) : list (string * string) :=
  match spec !! key with
  | Some (Pairs l) => l
  | _ => []
  end.

(** [self.spec[key] is not False] *)
Definition spec_is_not_False (spec : rules) (key : string) : bool :=
  match spec !! key with
  | Some (Flag false) => false
  | _ => true
  end.

(** The loop of [_find_replace] over the configured pairs. *)
Fixpoint find_replace_pairs (pairs : list (string * string)) (source : string)
  : string :=
  match pairs with
  | [] => source
  | (find, replace) :: rest => find_replace_pairs rest (Str.replace source find replace)
  end.

Definition _find_replace (spec : rules) (source : string) : string :=
  find_replace_pairs (spec_pairs spec "find_replace") source.

(** ** lxml elements

    An element has an identity (the Python object), a tag, attributes, the
    text before its first child, its children, and its tail: the text that
    follows it inside its parent. A comment is a node whose tag is not a
    string; it has no children. *)

Inductive node_tag : Type :=
  | Element (name : string)
  | Comment.

#[local] Unset Elimination Schemes.
Inductive node : Type :=
  Node (ident : nat) (tag : node_tag) (attrib : list (string * string))
       (text : string) (children : list node) (tail : string).
#[local] Set Elimination Schemes.

Definition node_id (n : node) : nat :=
  match n with Node i _ _ _ _ _ => i end.
Definition tag_of (n : node) : node_tag :=
  match n with Node _ t _ _ _ _ => t end.
Definition attrib_of (n : node) : list (string * string) :=
  match n with Node _ _ a _ _ _ => a end.
Definition text_of (n : node) : string :=
  match n with Node _ _ _ x _ _ => x end.
Definition children_of (n : node) : list node :=
  match n with Node _ _ _ _ cs _ => cs end.
Definition tail_of (n : node) : string :=
  match n with Node _ _ _ _ _ tl => tl end.

Definition set_tail (n : node) (tl : string) : node :=
  match n with Node i t a x cs _ => Node i t a x cs tl end.

Definition is_element (n : node) : bool :=
  match tag_of n with Element _ => true | Comment => false end.

(** [e.tag == name] *)
Definition has_tag (name : string) (n : node) : bool :=
  match tag_of n with Element t => String.eqb t name | Comment => false end.

(** [e.get(name)], with the empty string for a missing attribute, as XPath's
    [string(@name)] gives. *)
Fixpoint attribute (name : string) (a : list (string * string)) : string :=
  match a with
  | [] => ""
  | (k, v) :: rest => if String.eqb k name then v else attribute name rest
  end.

(** The nodes of a tree in document order. *)
Fixpoint nodes (n : node) : list node :=
  n :: flat_map nodes (children_of n).

Definition ids (n : node) : list nat := map node_id (nodes n).

(** The tails of a list of siblings, concatenated. *)
Fixpoint tails (cs : list node) : string :=
  match cs with
  | [] => ""
  | c :: rest => tail_of c +:+ tails rest
  end.

(** The character data that stands directly inside an element: its [text]
    and the tails of its children. *)
Definition own_text (n : node) : string := text_of n +:+ tails (children_of n).

(** [e.text_content()]: the text of the element and of its descendants, in
    document order. The text of a comment is not part of it; its tail is. *)
Fixpoint text_content (n : node) : string :=
  text_of n +:+
  (fix go (cs : list node) : string :=
     match cs with
     | [] => ""
     | c :: rest =>
         (if is_element c then text_content c else "") +:+ tail_of c +:+ go rest
     end) (children_of n).

(** *** The state: the parsed document and the subtrees dropped from it

    Python keeps a dropped subtree alive as long as something refers to it,
    so the state holds the document and, after it, the dropped subtrees. *)

Record dom : Type := Dom { document : node; dropped : list node }.

Definition trees (d : dom) : list node := document d :: dropped d.
Definition dom_nodes (d : dom) : list node := flat_map nodes (trees d).
Definition dom_ids (d : dom) : list nat := map node_id (dom_nodes d).

(** The elements without a parent. *)
Definition roots (d : dom) : list nat := map node_id (trees d).

(** The element with identity [i], as it currently is. *)
Definition find_node (i : nat) (d : dom) : option node :=
  find (λ n, node_id n =? i) (dom_nodes d).

(** *** [drop_tree]

    [lxml.html.HtmlMixin.drop_tree]: asserts that the element has a parent,
    joins the element's tail to the tail of the previous sibling, or to the
    parent's text when there is none, and removes the element from its
    parent. *)

Definition is_child (i : nat) (cs : list node) : bool :=
  existsb (λ c, node_id c =? i) cs.

(** Remove the child [i] from the siblings [cs] that follow [prev]. *)
Fixpoint drop_after (i : nat) (prev : node) (cs : list node) : list node :=
  match cs with
  | [] => [prev]
  | c :: rest =>
      if node_id c =? i
      then set_tail prev (tail_of prev +:+ tail_of c) :: rest
      else prev :: drop_after i c rest
  end.

(** Remove the child [i] of an element with text [x] and children [cs]. *)
Definition drop_child (i : nat) (x : string) (cs : list node)
  : string * list node :=
  match cs with
  | [] => (x, [])
  | c :: rest =>
      if node_id c =? i then (x +:+ tail_of c, rest)
      else (x, drop_after i c rest)
  end.

(** Remove the descendant [i] of [n] from its parent. *)
Fixpoint drop_desc (i : nat) (n : node) : node :=
  match n with
  | Node j t a x cs tl =>
      if is_child i cs
      then let '(x', cs') := drop_child i x cs in Node j t a x' cs' tl
      else Node j t a x (map (drop_desc i) cs) tl
  end.

Definition drop_tree (i : nat) (d : dom) : result dom :=
  if bool_decide (i ∈ roots d)
  then Raised (MkExn AssertionError "")
  else
    match find_node i d with
    | Some e =>
        Ok (Dom (drop_desc i (document d))
                (map (drop_desc i) (dropped d) ++ [e]))
    | None => Ok d
    end.

(** *** XPath results and the expressions the scraper builds itself *)

(** What an XPath evaluation yields: references to nodes, or strings. *)
Inductive xitem : Type :=
  | XNode (i : nat)
  | XText (s : string).

Definition double_quote : ascii := ascii_of_nat 34.

(** The characters that [_strip_id_or_class] and [_strip_image_src] trim
    from a value: space, double quote, single quote. *)
Definition quote_chars : string := String " " (String double_quote "'").

(** A value that stays one string literal when put between double quotes in
    an expression: printable ASCII without a double quote. *)
Definition plain_literal (v : string) : bool :=
  Str.count (λ c, let n := nat_of_ascii c in
                  negb ((32 <=? n) && (n <? 127) && negb (n =? 34))) v =? 0.

(** The nodes of the document that satisfy [p], in document order. *)
Definition select (p : node → bool) (d : dom) : list xitem :=
  map (λ n, XNode (node_id n)) (filter (λ n, p n = true) (nodes (document d))).

(** The elements whose [class] or [id] attribute contains [v]: the union
    expression that [_strip_id_or_class] formats for a plain [v]. *)
Definition matches_id_or_class (v : string) (n : node) : bool :=
  is_element n &&
  (Str.contains (attribute "class" (attrib_of n)) v ||
   Str.contains (attribute "id" (attrib_of n)) v).

Definition id_or_class_xpath (v : string) : string :=
  "//*[contains(@class," +:+ String double_quote v +:+ String double_quote
  ")] | //*[contains(@id," +:+ String double_quote v +:+ String double_quote ")]".

(** The [img] elements whose [src] attribute contains [v]. *)
Definition matches_image_src (v : string) (n : node) : bool :=
  has_tag "img" n && Str.contains (attribute "src" (attrib_of n)) v.

Definition image_src_xpath (v : string) : string :=
  "//img[contains(@src," +:+ String double_quote v +:+ String double_quote ")]".

(** The class [\w] of a pattern compiled with [re.UNICODE]: the underscore
    and what [Py_UNICODE_ISALNUM] accepts. Below U+0100 these are the ASCII
    digits and letters; the letters U+00AA, U+00B5, U+00BA, U+00C0 to U+00D6,
    U+00D8 to U+00F6 and U+00F8 to U+00FF; the superscript digits U+00B2,
    U+00B3, U+00B9; and the fractions U+00BC to U+00BE. The multiplication
    and division signs U+00D7 and U+00F7 are not in it. *)
Definition is_word (c : ascii) : bool :=
  let n := nat_of_ascii c in
  ((48 <=? n) && (n <=? 57)) || ((65 <=? n) && (n <=? 90)) ||
  ((97 <=? n) && (n <=? 122)) || (n =? 95) ||
  (n =? 170) || (n =? 178) || (n =? 179) || (n =? 181) || (n =? 185) ||
  (n =? 186) || ((188 <=? n) && (n <=? 190)) ||
  ((192 <=? n) && (n <=? 214)) || ((216 <=? n) && (n <=? 246)) ||
  ((248 <=? n) && (n <=? 255)).

(** The class [[\w,\.]]: a word character, a comma or a period. *)
Definition is_nonspecial (c : ascii) : bool :=
  is_word c || (nat_of_ascii c =? 44) || (nat_of_ascii c =? 46).

(** [t.strip()] for a text [t] that lxml hands out. Under Python 2 lxml
    returns a byte string when the text is plain ASCII and a unicode string
    otherwise, and [strip] removes the blanks of the type it is called on. *)
Definition text_strip (t : string) : string :=
  if Str.is_ascii t then Str.strip Str.ascii_whitespace t
  else Str.strip Str.whitespace t.

(** [float(sc) / (sc + nsc) > special_limit], on exact fractions. The
    division is only reached with a positive denominator. *)
Definition fraction_exceeds (sc total : Z) (special_limit : Q) : bool :=
  negb (Qle_bool (inject_Z sc / inject_Z total) special_limit).

Definition special_limit_default : Q := 1 # 2.

(** ** instapaper.py: the scraper *)

Definition document_is_empty : exn := MkExn ParserError "Document is empty".

Section Scraper.

(** What lxml provides and this development does not model:
    - [xpath d ctx expr]: [e.xpath(expr)] for the element [e] of identity
      [ctx], for the expressions a rule set configures;
    - [fromstring source]: [lxml.html.fromstring], giving the parsed document
      and the identity of the element it returns;
    - [cleaned doc e]: what [clean_html] returns once its argument is parsed;
    - [tostring e]: [lxml.html.tostring]. *)
Variable xpath : dom → nat → string → result (list xitem).
Variable fromstring : string → result (node * nat).
Variable cleaned : node → nat → result string.
Variable tostring : node → string.

(** [lxml.html.clean.clean_html] parses its argument with [fromstring]. *)
Definition clean_html (source : string) : result string :=
  parsed ⇐ fromstring source; cleaned parsed.1 parsed.2.

Definition _maybe_clean (spec : rules) (source : string) : result string :=
  if spec_is_not_False spec "lxml_clean" then clean_html source
  else Ok source.

(** [for elem in items: elem.drop_tree()] *)
Fixpoint drop_all (items : list xitem) (d : dom) : result dom :=
  match items with
  | [] => Ok d
  | XNode i :: rest => d' ⇐ drop_tree i d; drop_all rest d'
  | XText _ :: _ =>
      Raised (MkExn AttributeError "'str' object has no attribute 'drop_tree'")
  end.

(** [_drop_by_xpath], given the evaluation of its expression. *)
Definition _drop_by_xpath (d : dom) (eval : dom → result (list xitem))
  : result dom :=
  items ⇐ eval d; drop_all items d.

Fixpoint strip_nodes_loop (etree : nat) (xpaths : list string) (d : dom)
  : result dom :=
  match xpaths with
  | [] => Ok d
  | expr :: rest =>
      d' ⇐ _drop_by_xpath d (λ d, xpath d etree expr);
      strip_nodes_loop etree rest d'
  end.

Definition _strip_nodes (spec : rules) (etree : nat) (d : dom) : result dom :=
  strip_nodes_loop etree (spec_values spec "strip") d.

(** The evaluation of the two expressions the scraper formats. *)
Definition eval_id_or_class (etree : nat) (v : string) (d : dom)
  : result (list xitem) :=
  if plain_literal v then Ok (select (matches_id_or_class v) d)
  else xpath d etree (id_or_class_xpath v).

Definition eval_image_src (etree : nat) (v : string) (d : dom)
  : result (list xitem) :=
  if plain_literal v then Ok (select (matches_image_src v) d)
  else xpath d etree (image_src_xpath v).

Fixpoint strip_id_or_class_loop (etree : nat) (values : list string) (d : dom)
  : result dom :=
  match values with
  | [] => Ok d
  | id_or_class :: rest =>
      let id_or_class := Str.strip quote_chars id_or_class in
      d' ⇐ _drop_by_xpath d (eval_id_or_class etree id_or_class);
      strip_id_or_class_loop etree rest d'
  end.

Definition _strip_id_or_class (spec : rules) (etree : nat) (d : dom)
  : result dom :=
  strip_id_or_class_loop etree (spec_values spec "strip_id_or_class") d.

Fixpoint strip_image_src_loop (etree : nat) (values : list string) (d : dom)
  : result dom :=
  match values with
  | [] => Ok d
  | substr :: rest =>
      let substr := Str.strip quote_chars substr in
      d' ⇐ _drop_by_xpath d (eval_image_src etree substr);
      strip_image_src_loop etree rest d'
  end.

Definition _strip_image_src (spec : rules) (etree : nat) (d : dom)
  : result dom :=
  strip_image_src_loop etree (spec_values spec "strip_image_src") d.

(** The test at the end of [prune_element], on the element [e] as it is
    after its children were visited. *)
Definition prune_counts (e : node) : Z * Z * Z :=
  let content := text_strip (text_content e) in
  let nsc := Z.of_nat (Str.count is_nonspecial content) in
  let wc := Z.of_nat (Str.count Str.is_space content) in
  let sc := (Z.of_nat (String.length content) - wc - nsc)%Z in
  (nsc, wc, sc).

Definition should_drop (e : node) (special_limit : Q) : bool :=
  let '(nsc, wc, sc) := prune_counts e in
  negb (has_tag "br" e) &&
  ((sc + nsc =? 0)%Z || fraction_exceeds sc (sc + nsc) special_limit).

(** [prune_element(e)]. The loop runs over the children [e] has when the
    call starts and visits those that are elements, as the expression [*]
    selects them; afterwards the element is read again from the state, and
    [len(e)] counts the children it still has, comments included. *)
Fixpoint prune_element (special_limit : Q) (e : node) (d : dom) : result dom :=
  d1 ⇐ (fix visit (cs : list node) (d : dom) : result dom :=
          match cs with
          | [] => Ok d
          | child :: rest =>
              if is_element child
              then d' ⇐ prune_element special_limit child d; visit rest d'
              else visit rest d
          end) (children_of e) d;
  match find_node (node_id e) d1 with
  | None => Ok d1
  | Some e1 =>
      if (0 <? length (children_of e1))%nat then Ok d1
      else if should_drop e1 special_limit then drop_tree (node_id e) d1
      else Ok d1
  end.

(** The loop [for child in e.xpath(star): prune_element(child)]. *)
Fixpoint prune_each (special_limit : Q) (cs : list node) (d : dom)
  : result dom :=
  match cs with
  | [] => Ok d
  | child :: rest =>
      if is_element child
      then d' ⇐ prune_element special_limit child d;
           prune_each special_limit rest d'
      else prune_each special_limit rest d
  end.

Definition _maybe_prune (spec : rules) (elem : nat) (d : dom) : result dom :=
  if spec_is_not_False spec "prune" then
    match find_node elem d with
    | Some e => prune_each special_limit_default (children_of e) d
    | None => Ok d
    end
  else Ok d.

(** [n.text_content().strip()] for an XPath result [n]. *)
Definition stripped_text (d : dom) (n : xitem) : result string :=
  match n with
  | XNode i =>
      match find_node i d with
      | Some e => Ok (text_strip (text_content e))
      | None => Ok ""
      end
  | XText _ =>
      Raised (MkExn AttributeError "'str' object has no attribute 'text_content'")
  end.

(** [_extract_first]: the generator of [_extract_all] is advanced until it
    yields its first node; the expressions after that one are not evaluated. *)
Fixpoint extract_first_loop (d : dom) (etree : nat) (xpaths : list string)
  : result (option xitem) :=
  match xpaths with
  | [] => Ok None
  | expr :: rest =>
      items ⇐ xpath d etree expr;
      match items with
      | n :: _ => Ok (Some n)
      | [] => extract_first_loop d etree rest
      end
  end.

Definition _extract_first (spec : rules) (d : dom) (etree : nat)
  (component : string) : result (option xitem) :=
  extract_first_loop d etree (spec_values spec component).

(** The loop over [date], [title] and [footnotes]. *)
Fixpoint extract_scalars (spec : rules) (d : dom) (etree : nat)
  (components : list string) (fields : gmap string pyval)
  : result (gmap string pyval) :=
  match components with
  | [] => Ok fields
  | c :: rest =>
      n ⇐ _extract_first spec d etree c;
      match n with
      | Some n =>
          t ⇐ stripped_text d n;
          extract_scalars spec d etree rest (<[c := PStr t]> fields)
      | None => extract_scalars spec d etree rest fields
      end
  end.

Fixpoint stripped_texts (d : dom) (items : list xitem) : result (list string) :=
  match items with
  | [] => Ok []
  | n :: rest =>
      t ⇐ stripped_text d n;
      more ⇐ stripped_texts d rest;
      Ok (t :: more)
  end.

(** The loop over [_extract_all(etree, author)]: each expression is
    evaluated when the nodes of the previous ones have been read. *)
Fixpoint extract_authors (d : dom) (etree : nat) (xpaths : list string)
  : result (list string) :=
  match xpaths with
  | [] => Ok []
  | expr :: rest =>
      items ⇐ xpath d etree expr;
      texts ⇐ stripped_texts d items;
      more ⇐ extract_authors d etree rest;
      Ok (texts ++ more)
  end.

(** What the body passes and the serialisation raise when the first match
    of the [body] directive is a string and not an element. *)
Definition body_is_a_string (spec : rules) : exn :=
  if (0 <? length (spec_values spec "strip"))%nat
     || (0 <? length (spec_values spec "strip_id_or_class"))%nat
     || (0 <? length (spec_values spec "strip_image_src"))%nat
     || spec_is_not_False spec "prune"
  then MkExn AttributeError "'str' object has no attribute 'xpath'"
  else MkExn TypeError "Type 'str' cannot be serialized.".

Definition clean_article (spec : rules) (source : string)
  : result (gmap string pyval) :=
  let source := _find_replace spec source in
  source ⇐ _maybe_clean spec source;
  parsed ⇐ fromstring source;
  let d := Dom parsed.1 [] in
  let etree := parsed.2 in
  fields ⇐ extract_scalars spec d etree ["date"; "title"; "footnotes"] ∅;
  authors ⇐ extract_authors d etree (spec_values spec "author");
  let fields := <["authors" := PStr (Str.join ", " authors)]> fields in
  maybe_body ⇐ _extract_first spec d etree "body";
  match maybe_body with
  | Some (XText _) => Raised (body_is_a_string spec)
  | Some (XNode _) | None =>
      let body := match maybe_body with Some (XNode i) => i | _ => etree end in
      d ⇐ _strip_nodes spec body d;
      d ⇐ _strip_id_or_class spec body d;
      d ⇐ _strip_image_src spec body d;
      d ⇐ _maybe_prune spec body d;
      match find_node body d with
      | Some e => Ok (<["html" := PStr (tostring e)]> fields)
      | None => Ok fields
      end
  end.

(** [scraper_cascade], from the baseline to the merge: the fields of the
    generic extractor, or the whole page, overridden by the truthy fields of
    the scraper when a rule set applies. *)
Definition cascade_fields (extracted : option (gmap string pyval))
  (spec : option rules) (content : string) : result (gmap string pyval) :=
  let fields := baseline extracted content in
  match spec with
  | Some spec =>
      override ⇐ clean_article spec content;
      Ok (merge_fields fields override)
  | None => Ok fields
  end.

End Scraper.

(** *** What a node keeps

    [same_element n n']: [n'] is the node [n] with the same tag and
    attributes, the same character data of its own, and children that are
    children of [n], in the same order. *)
Definition same_element (n n' : node) : Prop :=
  node_id n' = node_id n ∧ tag_of n' = tag_of n ∧
  attrib_of n' = attrib_of n ∧ own_text n' = own_text n ∧
  map node_id (children_of n') `sublist_of` map node_id (children_of n).

(** Every node of [after] is a node of [before], kept as above. *)
Definition preserved (before after : list node) : Prop :=
  ∀ n', n' ∈ after → ∃ n, n ∈ before ∧ same_element n n'.

(** *** States reached by dropping subtrees *)

(** [frame d d']: every node of the state [d'] is a node of [d] that kept
    its tag, attributes, own text and order of children; the same holds of
    the nodes that are still in the document. *)
Definition frame (d d' : dom) : Prop :=
  preserved (nodes (document d)) (nodes (document d')) ∧
  preserved (dom_nodes d) (dom_nodes d').

(** A sequence of calls of [drop_tree]. *)
Fixpoint drop_seq (l : list nat) (d : dom) : result dom :=
  match l with
  | [] => Ok d
  | i :: rest => d' ⇐ drop_tree i d; drop_seq rest d'
  end.

Definition only_drops (d d' : dom) : Prop := ∃ l, drop_seq l d = Ok d'.

(** *** Dropping selected nodes from the document *)

(** A well-formed state: the identities of the document are distinct, and no
    dropped subtree has the identity of a node of the document. *)
Definition wf_dom (d : dom) : Prop :=
  NoDup (ids (document d)) ∧
  ∀ r, r ∈ map node_id (dropped d) → r ∉ ids (document d).

(** [t'] is the document [t] after some subtrees were dropped. *)
Definition shrinks (t t' : node) : Prop :=
  node_id t' = node_id t ∧ tag_of t' = tag_of t ∧ attrib_of t' = attrib_of t ∧
  ids t' ⊆ ids t ∧ preserved (nodes t) (nodes t').

(** *** Substrings *)

(** [sub] occurs somewhere in [s]. *)
Definition substring_of (sub s : string) : Prop :=
  ∃ pre post, s = pre +:+ sub +:+ post.

(** ** A sample page *)

Definition el (i : nat) (t : string) (a : list (string * string)) (x : string)
  (cs : list node) (tl : string) : node :=
  Node i (Element t) a x cs tl.

Definition advert : node := el 4 "div" [("class", "notclass1")] "Ad" [] " after".
Definition noise : node := el 5 "p" [] "@#$%" [] "".
Definition at_threshold : node := el 9 "p" [] "a!" [] "".

Definition page : node :=
  el 0 "html" [] "" [
    el 1 "body" [] "" [
      el 2 "div" [("id", "content")] "" [
        el 3 "p" [] "Hello, world." [] "";
        advert;
        noise;
        el 6 "br" [] "" [] "";
        el 7 "span" [] "#" [ el 8 "b" [] "..." [] "" ] "";
        at_threshold;
        el 10 "p" [] "  " [] ""
      ] ""
    ] ""
  ] "".

(** The page once the advert is stripped: its tail now follows the
    paragraph before it. *)
Definition page_stripped : dom :=
  Dom (el 0 "html" [] "" [
         el 1 "body" [] "" [
           el 2 "div" [("id", "content")] "" [
             el 3 "p" [] "Hello, world." [] " after";
             noise;
             el 6 "br" [] "" [] "";
             el 7 "span" [] "#" [ el 8 "b" [] "..." [] "" ] "";
             at_threshold;
             el 10 "p" [] "  " [] ""
           ] ""
         ] ""
       ] "")
      [advert].

(** The stripped page once pruned: the paragraph of special characters and
    the blank paragraph are gone. *)
Definition page_pruned : dom :=
  Dom (el 0 "html" [] "" [
         el 1 "body" [] "" [
           el 2 "div" [("id", "content")] "" [
             el 3 "p" [] "Hello, world." [] " after";
             el 6 "br" [] "" [] "";
             el 7 "span" [] "#" [ el 8 "b" [] "..." [] "" ] "";
             at_threshold
           ] ""
         ] ""
       ] "")
      [advert; noise; el 10 "p" [] "  " [] ""].

Definition page_rules : rules :=
  {[ "strip_id_or_class" := Values ["'class1'"] ]}.

(** An evaluator for rule sets that configure no expression of their own. *)
Definition no_xpath : dom → nat → string → result (list xitem) :=
  λ _ _ _, Raised (MkExn XPathEvalError "Invalid expression").

(** A document whose root element has the class [notclass1], which contains
    [class1]. *)
Definition page_with_root_class : node :=
  el 0 "html" [("class", "notclass1")] "" [
    el 1 "body" [] "" [ el 2 "p" [] "Hello" [] "" ] ""
  ] "".

(** *** A stand-in for lxml on the empty source

    The parser below is exact on the empty string only; any other source is
    wrapped, unparsed, in a paragraph. *)

Definition fromstring_stub (source : string) : result (node * nat) :=
  if String.eqb source "" then Raised document_is_empty
  else Ok (el 0 "html" [] "" [el 1 "body" [] "" [el 2 "p" [] source [] ""] ""] "",
           2).

Definition tostring_stub (e : node) : string := text_content e.

Definition cleaned_stub (doc : node) (e : nat) : result string :=
  Ok (text_content doc).

(** ** sitespec.py: reading test cases *)

(** [parse_specline]: the label is the text before the first colon, as it
    stands; the content is the text after it, stripped of whitespace. The
    line is a unicode string, the result of [decode], so the whitespace is
    Unicode's. *)
Definition parse_specline (line : string) : string * string :=
  let parts := Str.partition line ":" in
  (parts.1.1, Str.strip Str.whitespace parts.2).

(** [TestCase.add_contains] *)
Definition add_contains (self : TestCase) (fragment : string) : TestCase :=
  MkTestCase (url self) (fragments self ++ [fragment]).

(** [cases[-1].add_contains(fragment)]: the last case of the list is the
    object that changes. *)
Fixpoint add_to_last (cases : list TestCase) (fragment : string)
  : list TestCase :=
  match cases with
  | [] => []
  | [case] => [add_contains case fragment]
  | case :: rest => case :: add_to_last rest fragment
  end.

Definition invalid_spec_file (fpath : string) : exn :=
  MkExn PlainException ("Invalid spec file: " +:+ fpath).

Section LoadTestcases.

(** [open_lines fpath]: the lines that iterating over [open(fpath)] yields;
    [decode line_str]: [line_str.decode] for UTF-8. *)
Variable open_lines : string → result (list string).
Variable decode : string → result string.

(** The loop of [load_testcases] over the lines, with the cases so far. *)
Fixpoint load_lines (fpath : string) (lines : list string)
  (cases : list TestCase) : result (list TestCase) :=
  match lines with
  | [] => Ok cases
  | line_str :: rest =>
      line ⇐ decode line_str;
      let '(label, content) := parse_specline line in
      if String.eqb label "test_url" then
        load_lines fpath rest (cases ++ [MkTestCase content []])
      else if String.eqb label "test_contains" then
        if (length cases =? 0)%nat then Raised (invalid_spec_file fpath)
        else load_lines fpath rest (add_to_last cases content)
      else load_lines fpath rest cases
  end.

Definition load_testcases (fpath : string) : result (list TestCase) :=
  lines ⇐ open_lines fpath; load_lines fpath lines [].

(** All the lines decoded, when they all can be. *)
Fixpoint decode_all (lines : list string) : result (list string) :=
  match lines with
  | [] => Ok []
  | line_str :: rest =>
      line ⇐ decode line_str;
      more ⇐ decode_all rest;
      Ok (line :: more)
  end.

End LoadTestcases.

(** The contents of the lines that carry [label], in order. *)
Definition contents_of (label : string) (lines : list string) : list string :=
  map snd (filter (λ p, p.1 = label) (map parse_specline lines)).

(** A line that [load_testcases] acts on. *)
Definition is_test_line (line : string) : Prop :=
  (parse_specline line).1 = "test_url" ∨
  (parse_specline line).1 = "test_contains".

#[global] Instance is_test_line_dec (line : string) : Decision (is_test_line line).
Proof. unfold is_test_line. apply _. Defined.

(** ** cascade.py: [scraper_cascade] and [clean_url] *)

Section Cascade.

Context {file : Type}.
Variable io_open : string → result file.
Variable load_rules : file → result rules.
Variable xpath : dom → nat → string → result (list xitem).
Variable fromstring : string → result (node * nat).
Variable cleaned : node → nat → result string.
Variable tostring : node → string.

(** The collaborators of [scraper_cascade]:
    - [hostname_of url]: [urlparse.urlparse(url).hostname], [None] for a
      url without a network location;
    - [clean_source url content]: the generic extractor
      [newspaper.clean_source], whose source is not at hand;
    - [handle v]: [HTML2Text.handle];
    - [markdown2 text]: [markdown2.markdown];
    - [download_url url]: [download.download_url], whose source is not at
      hand. *)
Variable hostname_of : string → option string.
Variable clean_source : string → string → result (option (gmap string pyval)).
Variable handle : pyval → result string.
Variable markdown2 : string → string.
Variable download_url : string → result string.

(** [load_superdomains(hostname)] for what [urlparse] gives: [None + ".txt"]
    is a type error, which [except IOError] does not catch. *)
Definition resolve (hostname : option string) : result (option rules) :=
  match hostname with
  | Some h => load_superdomains io_open load_rules h
  | None =>
      Raised (MkExn TypeError
                "unsupported operand type(s) for +: 'NoneType' and 'str'")
  end.

(** The end of [scraper_cascade]: the three renditions of the [html] field. *)
Definition render (fields : gmap string pyval) : result (gmap string pyval) :=
  html ⇐ subscript fields "html";
  markdown ⇐ handle html;
  let fields := <["markdown" := PStr markdown]> fields in
  let fields := <["markdown_html" := PStr (markdown2 markdown)]> fields in
  Ok (<["plaintext" := PStr (Str.replace markdown newline " ")]> fields).

Definition scraper_cascade (url content : string)
  : result (gmap string pyval) :=
  spec ⇐ resolve (hostname_of url);
  extracted ⇐ clean_source url content;
  fields ⇐ cascade_fields xpath fromstring cleaned tostring
             extracted spec content;
  render fields.

Definition clean_url (url : string) : result (gmap string pyval) :=
  content ⇐ download_url url; scraper_cascade url content.

End Cascade.

(** *** Sample collaborators *)

Definition sample_lines : list string :=
  [ "title: //h1" +:+ newline;
    "test_url: http://example.com/a" +:+ newline;
    "test_contains:  Hello " +:+ newline;
    newline;
    "test_contains: World" +:+ newline;
    "test_url: http://example.com/b" +:+ newline ].

Definition sample_open_lines (fpath : string) : result (list string) :=
  if String.eqb fpath "sitespecs/example.com.txt" then Ok sample_lines
  else Raised no_such_file.

Definition decode_ascii (line_str : string) : result string := Ok line_str.

(** A renderer that accepts strings only, and a hostname parser for urls of
    the form [http://host/path]. *)
Definition handle_stub (v : pyval) : result string :=
  match v with
  | PStr s => Ok s
  | _ => Raised (MkExn TypeError "expected string")
  end.

Definition hostname_stub (url : string) : option string :=
  match Str.partition (Str.partition url "/").2 "/" with
  | (_, _, rest) =>
      let host := (Str.partition rest "/").1.1 in
      if String.eqb host "" then None else Some host
  end.

Definition two_lines : string := "a" +:+ newline +:+ "b".

(** ** instapaper.py: the fields a scraper returns *)

(** Every field is a string, its key is one of [components], and the rule
    set has an expression for it. *)
Definition scalar_fields (spec : rules) (components : list string)
  (fields : gmap string pyval) : Prop :=
  ∀ k v, fields !! k = Some v →
    (∃ s, v = PStr s) ∧ k ∈ components ∧ spec_values spec k ≠ [].

(** *** A sample evaluator and rule set for the extraction *)

(** An evaluator that knows two expressions: no [h1] is ever found, and
    [//p] selects the paragraphs of the document. *)
Definition sample_xpath : dom → nat → string → result (list xitem) :=
  λ d _ expr,
    if String.eqb expr "//h1" then Ok []
    else if String.eqb expr "//p" then Ok (select (has_tag "p") d)
    else Raised (MkExn XPathEvalError "Invalid expression").

Definition article_rules : rules :=
  {[ "title" := Values ["//h1"; "//p"]; "prune" := Flag false ]}.

(** ** What the body passes remove *)

(** [j] is the element [i] of the tree [t], or one of its descendants. *)
Definition inside (t : node) (i j : nat) : Prop :=
  ∃ e, e ∈ nodes t ∧ node_id e = i ∧ j ∈ ids e.

(** [j] is an element of [t] that satisfies [p], or a descendant of one. *)
Definition covered (p : node → bool) (t : node) (j : nat) : Prop :=
  ∃ e, e ∈ nodes t ∧ p e = true ∧ j ∈ ids e.

(** A test that looks at the tag and the attributes of a node only. *)
Definition by_tag_and_attrib (p : node → bool) : Prop :=
  ∀ n n', tag_of n = tag_of n' → attrib_of n = attrib_of n' → p n = p n'.

(** For each test in turn, the nodes of the document that satisfy it are
    selected and dropped. *)
Fixpoint drop_selections (ps : list (node → bool)) (d : dom) : result dom :=
  match ps with
  | [] => Ok d
  | p :: rest => d' ⇐ drop_all (select p d) d; drop_selections rest d'
  end.





(** *** A sample page with images *)

Definition gallery : node :=
  el 0 "html" [] "" [
    el 1 "body" [] "" [
      el 2 "p" [] "Text" [] "";
      el 3 "img" [("src", "http://ads.example.com/banner.png")] "" [] "";
      el 4 "img" [("src", "/photos/cat.png")] "" [] ""
    ] ""
  ] "".

Definition gallery_rules : rules :=
  {[ "strip_image_src" := Values ["ads.example.com"] ]}.


(** *** A page whose body begins with an advert *)

Definition lead : node :=
  el 0 "html" [] "" [
    el 1 "body" [] "Intro" [
      el 2 "div" [("class", "notclass1")] "Ad" [] " after";
      el 3 "p" [] "Hello" [] ""
    ] ""
  ] "".

Definition lead_stripped : dom :=
  Dom (el 0 "html" [] "" [
         el 1 "body" [] "Intro after" [ el 3 "p" [] "Hello" [] "" ] ""
       ] "")
      [el 2 "div" [("class", "notclass1")] "Ad" [] " after"].

(** *** Texts beyond ASCII

    A paragraph of three letters, two of them accented (U+00E9); a paragraph
    of one letter between no-break spaces (U+00A0); a paragraph of two
    multiplication signs (U+00D7) and a letter. *)
Definition accented : node := el 11 "p" [] (Str.of_codes [233; 116; 233]) [] "".
Definition padded : node := el 12 "p" [] (Str.of_codes [160; 97; 160]) [] "".
Definition signs : node := el 13 "p" [] (Str.of_codes [215; 215; 97]) [] "".

(** * Properties *)

(** ** String operations *)

Example partition_example :
  Str.partition "news.example.com" "." = ("news", ".", "example.com").
Proof. reflexivity. Qed.

Example partition_no_separator :
  Str.partition "localhost" "." = ("localhost", "", "").
Proof. reflexivity. Qed.

Example replace_example : Str.replace "a-b-c" "-" "+" = "a+b+c".
Proof. reflexivity. Qed.

Example replace_overlapping : Str.replace "aaa" "aa" "b" = "ba".
Proof. reflexivity. Qed.

Example replace_empty_pattern : Str.replace "ab" "" "-" = "-a-b-".
Proof. reflexivity. Qed.

Example strip_quotes : Str.strip " '" " 'class1' " = "class1".
Proof. reflexivity. Qed.

Lemma append_assoc (a b c : string) : (a +:+ b) +:+ c = a +:+ (b +:+ c).
Proof. induction a as [|x a IH]; simpl; [done|]. by rewrite IH. Qed.

Lemma length_append (a b : string) :
  String.length (a +:+ b) = String.length a + String.length b.
Proof. induction a as [|x a IH]; simpl; [done|]. by rewrite IH. Qed.

(** ** The superdomain walk *)

Lemma super_domain_shorter (hostname : string) :
  super_domain_of hostname ≠ "" →
  String.length (super_domain_of hostname) < String.length hostname.
Proof.
  unfold super_domain_of, Str.partition.
  destruct (Str.has_char "." hostname) eqn:Hdot; simpl; [|done].
  intros _.
  induction hostname as [|c s IH]; simpl in *; [done|].
  destruct (Ascii.eqb c "."); simpl in *; [lia|].
  specialize (IH Hdot). lia.
Qed.

Example hostname_chain_example :
  hostname_chain "a.b.example.com" =
    ["a.b.example.com"; "b.example.com"; "example.com"; "com"].
Proof. reflexivity. Qed.

Example hostname_chain_trailing_dot :
  hostname_chain "example.com." = ["example.com."; "com."].
Proof. reflexivity. Qed.

Lemma dict_truthy_nonempty {V : Type} (d : gmap string V) :
  dict_truthy d = true ↔ d ≠ ∅.
Proof.
  unfold dict_truthy. rewrite negb_true_iff, Nat.eqb_neq.
  by rewrite map_size_non_empty_iff.
Qed.

Lemma dict_truthy_empty {V : Type} (d : gmap string V) :
  dict_truthy d = false ↔ d = ∅.
Proof.
  unfold dict_truthy. rewrite negb_false_iff, Nat.eqb_eq.
  by rewrite map_size_empty_iff.
Qed.

Lemma partition_after_no_sep (sep : ascii) (s : string) :
  Str.has_char sep s = false → Str.partition_after sep s = "".
Proof.
  induction s as [|c s IH]; simpl; [done|].
  destruct (Ascii.eqb c sep); simpl; [done|]. exact IH.
Qed.

Lemma super_domain_no_dot (hostname : string) :
  Str.has_char "." hostname = false → super_domain_of hostname = "".
Proof. unfold super_domain_of, Str.partition. by intros ->. Qed.

Lemma super_domain_after (hostname : string) :
  super_domain_of hostname = Str.partition_after "." hostname.
Proof.
  unfold super_domain_of, Str.partition.
  destruct (Str.has_char "." hostname) eqn:Hdot; simpl; [done|].
  by rewrite partition_after_no_sep.
Qed.

(** The chain of a hostname continues with the chain of its superdomain. *)
Lemma dot_suffixes_super_domain (hostname : string) :
  dot_suffixes hostname =
    if String.eqb (super_domain_of hostname) "" then []
    else hostname_chain (super_domain_of hostname).
Proof.
  rewrite super_domain_after. unfold hostname_chain.
  induction hostname as [|c s IH]; simpl; [done|].
  destruct (Ascii.eqb c "."); [|exact IH].
  by destruct (String.eqb s "").
Qed.

Lemma dot_suffixes_label (h k : string) :
  k ∈ dot_suffixes h ↔ k ≠ "" ∧ ∃ pre, h = pre +:+ String "." k.
Proof.
  induction h as [|c s IH]; simpl.
  - split; [by intros ?%elem_of_nil|].
    intros [_ [[|x pre] Hpre]]; simpl in Hpre; discriminate.
  - destruct (Ascii.eqb_spec c ".") as [->|Hc].
    + destruct (String.eqb_spec s "") as [->|Hs].
      * split; [by intros ?%elem_of_nil|].
        intros [Hk [[|x [|y pre]] Hpre]]; simpl in Hpre; congruence.
      * rewrite elem_of_cons, IH. split.
        -- intros [->|[Hk [pre ->]]]; (split; [done|]).
           ++ by exists "".
           ++ by exists (String "." pre).
        -- intros [Hk [[|x pre] Hpre]]; simpl in Hpre.
           ++ left. congruence.
           ++ right. split; [done|]. exists pre. congruence.
    + rewrite IH. split.
      * intros [Hk [pre ->]]. split; [done|]. by exists (String c pre).
      * intros [Hk [[|x pre] Hpre]]; simpl in Hpre; [congruence|].
        split; [done|]. exists pre. congruence.
Qed.

Section ResolverFacts.

Context {file : Type}.
Variable io_open : string → result file.
Variable load_rules : file → result rules.

Local Abbreviation load_sitespec := (load_sitespec io_open load_rules).
Local Abbreviation load_superdomains := (load_superdomains io_open load_rules).
Local Abbreviation next_superdomain := (next_superdomain io_open load_rules).
Local Abbreviation no_rules := (no_rules io_open load_rules).

Lemma load_superdomains_eq (hostname : string) :
  load_superdomains hostname =
    match load_sitespec hostname with
    | Ok d => if dict_truthy d then Ok (Some d) else next_superdomain hostname
    | Raised e => if is_IOError e then next_superdomain hostname else Raised e
    end.
Proof.
  rewrite load_superdomains_equation_1. unfold load_or_empty, next_superdomain.
  destruct (load_sitespec hostname) as [d|e].
  - destruct (dict_truthy d); [done|].
    destruct (string_dec _ _) as [->|Hne]; [done|].
    by apply String.eqb_neq in Hne as ->.
  - destruct (is_IOError e); [|done].
    change (dict_truthy (∅ : rules)) with false; simpl.
    destruct (string_dec _ _) as [->|Hne]; [done|].
    by apply String.eqb_neq in Hne as ->.
Qed.

Lemma no_rules_next (hostname : string) :
  no_rules hostname → load_superdomains hostname = next_superdomain hostname.
Proof.
  intros [[e [He Hio]]|He]; rewrite load_superdomains_eq, He.
  - by rewrite Hio.
  - done.
Qed.

Lemma hostname_chain_label (h k : string) :
  k ∈ hostname_chain h ↔ label_suffix h k.
Proof.
  unfold hostname_chain, label_suffix.
  by rewrite elem_of_cons, dot_suffixes_label.
Qed.

Lemma dot_suffixes_shorter (h k : string) :
  k ∈ dot_suffixes h → String.length k < String.length h.
Proof.
  rewrite dot_suffixes_label. intros [_ [pre ->]].
  rewrite length_append. simpl. lia.
Qed.

Lemma dot_suffixes_sorted (h : string) :
  StronglySorted (λ a b, String.length b < String.length a) (dot_suffixes h).
Proof.
  induction h as [|c s IH]; simpl; [constructor|].
  destruct (Ascii.eqb c "."); [|done].
  destruct (String.eqb s ""); constructor; [done|].
  apply Forall_forall. intros k Hk. by apply dot_suffixes_shorter.
Qed.

Lemma hostname_chain_sorted (h : string) :
  StronglySorted (λ a b, String.length b < String.length a) (hostname_chain h).
Proof.
  constructor; [apply dot_suffixes_sorted|].
  apply Forall_forall. intros k Hk. by apply dot_suffixes_shorter.
Qed.

Lemma load_superdomains_found (h : string) :
  ∀ pre k post d,
    hostname_chain h = pre ++ k :: post →
    Forall no_rules pre →
    load_sitespec k = Ok d → d ≠ ∅ →
    load_superdomains h = Ok (Some d).
Proof.
  intros pre. revert h.
  induction pre as [|p pre IH]; intros h k post d Hchain Hpre Hk Hd.
  - injection Hchain as <- _. rewrite load_superdomains_eq, Hk.
    apply dict_truthy_nonempty in Hd. by rewrite Hd.
  - injection Hchain as <- Hrest. apply Forall_cons in Hpre as [Hh Hpre].
    rewrite (no_rules_next _ Hh). unfold next_superdomain.
    rewrite dot_suffixes_super_domain in Hrest.
    destruct (String.eqb (super_domain_of h) "").
    + by destruct pre.
    + by eapply IH.
Qed.

Lemma load_superdomains_exhausted (h : string) :
  Forall no_rules (hostname_chain h) → load_superdomains h = Ok None.
Proof.
  remember (hostname_chain h) as l eqn:Hl. revert h Hl.
  induction l as [|a l IH]; intros h Hl Hall; [done|].
  injection Hl as -> Hl. apply Forall_cons in Hall as [Hh Hall].
  rewrite (no_rules_next _ Hh). unfold next_superdomain.
  rewrite dot_suffixes_super_domain in Hl.
  destruct (String.eqb (super_domain_of h) ""); [done|].
  by apply IH.
Qed.

(** Every outcome of the walk comes from the lookup of one key of the chain. *)
Lemma load_superdomains_outcome (h : string) :
  load_superdomains h = Ok None ∨
  (∃ k d, k ∈ hostname_chain h ∧ load_sitespec k = Ok d ∧ d ≠ ∅ ∧
          load_superdomains h = Ok (Some d)) ∨
  (∃ k e, k ∈ hostname_chain h ∧ load_sitespec k = Raised e ∧
          is_IOError e = false ∧ load_superdomains h = Raised e).
Proof.
  remember (hostname_chain h) as l eqn:Hl. revert h Hl.
  induction l as [|a l IH]; intros h Hl; [done|].
  injection Hl as -> Hl.
  assert (next_superdomain h = Ok None ∨
    (∃ k d, k ∈ l ∧ load_sitespec k = Ok d ∧ d ≠ ∅ ∧
            next_superdomain h = Ok (Some d)) ∨
    (∃ k e, k ∈ l ∧ load_sitespec k = Raised e ∧
            is_IOError e = false ∧ next_superdomain h = Raised e)) as Hnext.
  { unfold next_superdomain. rewrite dot_suffixes_super_domain in Hl.
    destruct (String.eqb (super_domain_of h) ""); [by left|].
    by apply IH. }
  assert (∀ r, next_superdomain h = r →
    r = Ok None ∨
    (∃ k d, k ∈ h :: l ∧ load_sitespec k = Ok d ∧ d ≠ ∅ ∧ r = Ok (Some d)) ∨
    (∃ k e, k ∈ h :: l ∧ load_sitespec k = Raised e ∧
            is_IOError e = false ∧ r = Raised e)) as Hlift.
  { intros r <-.
    destruct Hnext as [?|[(k & d & ? & ? & ? & ?)|(k & e & ? & ? & ? & ?)]].
    - by left.
    - right; left. exists k, d. by rewrite elem_of_cons; auto.
    - right; right. exists k, e. by rewrite elem_of_cons; auto. }
  rewrite load_superdomains_eq.
  destruct (load_sitespec h) as [d|e] eqn:Hh.
  - destruct (dict_truthy d) eqn:Hd; [|by apply Hlift].
    right; left. exists h, d. apply dict_truthy_nonempty in Hd.
    by rewrite elem_of_cons; auto.
  - destruct (is_IOError e) eqn:He; [by apply Hlift|].
    right; right. exists h, e. by rewrite elem_of_cons; auto.
Qed.

(** C1. The resolver returns the rule set of the most specific key of the
    hostname chain whose lookup gives a non-empty rule set. The chain lists
    the hostname and then the remainders after each of its dots, longest
    first; keys whose file is missing or whose rule set is empty are passed
    over; when every key of the chain is passed over the result is [None]. *)
Theorem load_superdomains_most_specific (hostname : string) :
  StronglySorted (λ a b, String.length b < String.length a)
    (hostname_chain hostname) ∧
  (∀ k, k ∈ hostname_chain hostname ↔ label_suffix hostname k) ∧
  (∀ pre k post d,
     hostname_chain hostname = pre ++ k :: post →
     Forall no_rules pre →
     load_sitespec k = Ok d → d ≠ ∅ →
     load_superdomains hostname = Ok (Some d)) ∧
  (Forall no_rules (hostname_chain hostname) →
   load_superdomains hostname = Ok None).
Proof.
  split; [apply hostname_chain_sorted|].
  split; [intros k; apply hostname_chain_label|].
  split; [apply load_superdomains_found|apply load_superdomains_exhausted].
Qed.

(** C5 (amended). A lookup that raises an [IOError] (a missing file or any
    other I/O failure) is handled exactly like a missing rule set: the walk
    goes on to the next superdomain. A lookup that raises an exception of any
    other class ends the walk with that exception. *)
Theorem load_superdomains_catches_IOError_only (hostname : string) (e : exn) :
  load_sitespec hostname = Raised e →
  (is_IOError e = true →
   load_superdomains hostname = next_superdomain hostname) ∧
  (is_IOError e = false → load_superdomains hostname = Raised e).
Proof.
  intros He. rewrite load_superdomains_eq, He.
  by split; intros ->.
Qed.

(** C9. The walk terminates on every string. When the lookup gives nothing
    the recursive call is made on the remainder after the first dot, which is
    strictly shorter than the hostname; without a dot there is no remainder
    and the result is [None]; at most one lookup per dot, plus one, is made,
    and the walk always ends with [None], a loaded rule set or the exception
    of one lookup. *)
Theorem load_superdomains_terminates (hostname : string) :
  (super_domain_of hostname ≠ "" →
   String.length (super_domain_of hostname) < String.length hostname) ∧
  (no_rules hostname →
   load_superdomains hostname =
     if String.eqb (super_domain_of hostname) "" then Ok None
     else load_superdomains (super_domain_of hostname)) ∧
  (Str.has_char "." hostname = false → no_rules hostname →
   load_superdomains hostname = Ok None) ∧
  length (hostname_chain hostname) ≤
    S (Str.count (λ c, Ascii.eqb c ".") hostname) ∧
  (load_superdomains hostname = Ok None ∨
   (∃ k d, k ∈ hostname_chain hostname ∧ load_sitespec k = Ok d ∧ d ≠ ∅ ∧
           load_superdomains hostname = Ok (Some d)) ∨
   (∃ k e, k ∈ hostname_chain hostname ∧ load_sitespec k = Raised e ∧
           is_IOError e = false ∧ load_superdomains hostname = Raised e)).
Proof.
  split; [apply super_domain_shorter|].
  split; [apply no_rules_next|].
  split.
  { intros Hdot Hno. rewrite (no_rules_next _ Hno). unfold next_superdomain.
    by rewrite super_domain_no_dot. }
  split; [|apply load_superdomains_outcome].
  unfold hostname_chain. simpl. apply le_n_S.
  induction hostname as [|c s IH]; simpl; [done|].
  destruct (Ascii.eqb c "."); [|done].
  destruct (String.eqb s ""); simpl; lia.
Qed.

End ResolverFacts.

Example resolve_news_example_com :
  load_superdomains sample_open sample_load_rules "news.example.com"
  = Ok (Some example_com_rules).
Proof. reflexivity. Qed.

Example resolve_blank_file_is_skipped :
  load_superdomains sample_open sample_load_rules "blog.example.com"
  = Ok (Some example_com_rules).
Proof. reflexivity. Qed.

Example resolve_unknown_host :
  load_superdomains sample_open sample_load_rules "localhost" = Ok None.
Proof. reflexivity. Qed.

Example resolve_other_tld :
  load_superdomains sample_open sample_load_rules "www.example.org" = Ok None.
Proof. reflexivity. Qed.

Lemma load_superdomains_most_specific_witness :
  load_superdomains sample_open sample_load_rules "blog.example.com"
  = Ok (Some example_com_rules).
Proof.
  apply (proj1 (proj2 (proj2 (load_superdomains_most_specific
            sample_open sample_load_rules "blog.example.com")))
          ["blog.example.com"] "example.com" ["com"]).
  - reflexivity.
  - constructor; [|constructor]. right. reflexivity.
  - reflexivity.
  - apply dict_truthy_nonempty. reflexivity.
Defined.

(** C5, as stated, fails: the lookup for [cdn.example.com] raises a decoding
    error, which is not an [IOError]; the walk ends with that exception,
    whereas with the file missing it goes on and finds the rules of
    [example.com]. *)
Lemma load_superdomains_propagates_decoding_error :
  load_sitespec sample_open sample_load_rules "cdn.example.com"
    = Raised undecodable ∧
  load_superdomains sample_open sample_load_rules "cdn.example.com"
    = Raised undecodable ∧
  load_superdomains sample_open_without_cdn sample_load_rules "cdn.example.com"
    = Ok (Some example_com_rules).
Proof. repeat split; reflexivity. Qed.

Lemma load_superdomains_catches_IOError_only_witness :
  load_superdomains sample_open sample_load_rules "www.example.com"
  = load_superdomains sample_open sample_load_rules "example.com".
Proof.
  apply (proj1 (load_superdomains_catches_IOError_only
                  sample_open sample_load_rules "www.example.com" no_such_file
                  eq_refl) eq_refl).
Defined.

(** ** The merge *)

Lemma merge_fields_lookup (result override : gmap string pyval) (k : string) :
  merge_fields result override !! k =
    match override !! k with
    | Some v => if truthy v then Some v else result !! k
    | None => result !! k
    end.
Proof.
  unfold merge_fields.
  apply (map_fold_weak_ind (λ r m, r !! k =
    match m !! k with
    | Some v => if truthy v then Some v else result !! k
    | None => result !! k
    end)).
  - by rewrite lookup_empty.
  - intros i x m r Hi IH.
    destruct (decide (i = k)) as [->|Hne].
    + rewrite lookup_insert_eq. rewrite Hi in IH.
      destruct (truthy x); [by rewrite lookup_insert_eq|done].
    + rewrite (lookup_insert_ne m) by done.
      destruct (truthy x); [by rewrite lookup_insert_ne|done].
Qed.

Section CascadeMerge.

Variable xpath : dom → nat → string → result (list xitem).
Variable fromstring : string → result (node * nat).
Variable cleaned : node → nat → result string.
Variable tostring : node → string.

Local Abbreviation clean_article :=
  (clean_article xpath fromstring cleaned tostring).
Local Abbreviation cascade_fields :=
  (cascade_fields xpath fromstring cleaned tostring).

(** C2. When a rule set applies and the scraper returns [override], the
    cascade returns the baseline (the fields of the generic extractor, or
    the page as [html] when it has none) merged with it: a field holds the
    override's value exactly when the override has a truthy value for it,
    and the baseline's value (or nothing, if the baseline had none)
    otherwise. When no rule set applies the baseline is returned as it is.
    An empty title in the override leaves the baseline's title in place
    while its body replaces the baseline's. *)
Theorem cascade_fields_overrides_truthy
  (extracted : option (gmap string pyval)) (spec : rules) (content : string)
  (override : gmap string pyval) :
  clean_article spec content = Ok override →
  let result := baseline extracted content in
  ∃ merged,
    cascade_fields extracted (Some spec) content = Ok merged ∧
    (∀ k v, override !! k = Some v → truthy v = true →
            merged !! k = Some v) ∧
    (∀ k v, override !! k = Some v → truthy v = false →
            merged !! k = result !! k) ∧
    (∀ k, override !! k = None → merged !! k = result !! k) ∧
    (∀ k, merged !! k ≠ result !! k ↔
          ∃ v, override !! k = Some v ∧ truthy v = true ∧
               result !! k ≠ Some v) ∧
    cascade_fields extracted None content = Ok result ∧
    (result = match extracted with
              | Some fields => if dict_truthy fields then fields
                               else {[ "html" := PStr content ]}
              | None => {[ "html" := PStr content ]}
              end) ∧
    merge_fields
      {[ "title" := PStr "A"; "body_html" := PStr "<p>x</p>" ]}
      {[ "title" := PStr ""; "body_html" := PStr "<p>y</p>" ]}
    = {[ "title" := PStr "A"; "body_html" := PStr "<p>y</p>" ]}.
Proof.
  intros Hclean result. exists (merge_fields result override).
  split; [unfold cascade_fields; by rewrite Hclean|].
  split; [|split; [|split; [|split; [|split; [done|split; [done|]]]]]].
  - intros k v Hk Hv. by rewrite merge_fields_lookup, Hk, Hv.
  - intros k v Hk Hv. by rewrite merge_fields_lookup, Hk, Hv.
  - intros k Hk. by rewrite merge_fields_lookup, Hk.
  - intros k. rewrite merge_fields_lookup. split.
    + intros Hne. destruct (override !! k) as [v|]; [|done].
      destruct (truthy v) eqn:Hv; [|done]. by exists v.
    + by intros (v & -> & -> & Hne).
  - apply map_eq. intros k. rewrite merge_fields_lookup.
    destruct (decide (k = "title")) as [->|Ht]; [done|].
    destruct (decide (k = "body_html")) as [->|Hb]; [done|].
    by rewrite !lookup_insert_ne, !lookup_singleton_ne by done.
Qed.

End CascadeMerge.

Lemma cascade_fields_overrides_truthy_witness :
  ∃ merged,
    cascade_fields sample_xpath fromstring_stub cleaned_stub tostring_stub
      (Some {[ "title" := PStr "Generic"; "authors" := PStr "A. Writer" ]})
      (Some article_rules) "Hello" = Ok merged ∧
    merged !! "title" = Some (PStr "Hello") ∧
    merged !! "authors" = Some (PStr "A. Writer").
Proof.
  destruct (cascade_fields_overrides_truthy sample_xpath fromstring_stub
              cleaned_stub tostring_stub
              (Some {[ "title" := PStr "Generic"; "authors" := PStr "A. Writer" ]})
              article_rules "Hello"
              {[ "title" := PStr "Hello"; "authors" := PStr "";
                 "html" := PStr "Hello" ]})
    as (merged & Hmerged & Htruthy & Hfalsy & _).
  { vm_compute. reflexivity. }
  exists merged. split; [exact Hmerged|]. split.
  - apply Htruthy; reflexivity.
  - rewrite (Hfalsy "authors" (PStr "")); reflexivity.
Defined.

(** ** The test runner *)

Section RunnerFacts.

Variable clean_content : string → result (gmap string pyval).

Local Abbreviation run := (run clean_content).

Lemma missing_fragments_str (l : list string) (t : string) :
  missing_fragments l (PStr t) = Ok (filter (λ s, Str.contains t s = false) l).
Proof.
  induction l as [|s l IH]; [done|].
  simpl. rewrite IH. simpl. rewrite filter_cons.
  by destruct (Str.contains t s).
Qed.

(** On success the report lists exactly the fragments absent from the
    plaintext, in their order. *)
Lemma run_ok (self : TestCase) (d : gmap string pyval) (t : string) :
  clean_content (url self) = Ok d → d !! "plaintext" = Some (PStr t) →
  run self =
    ("", Ok {[ "url" := PStr (url self);
               "status" := PStr "OK";
               "missing_fragments" :=
                 PList (filter (λ s, Str.contains t s = false) (fragments self)) ]}).
Proof.
  intros Hd Ht. unfold run, subscript. rewrite Hd. simpl. rewrite Ht.
  by rewrite missing_fragments_str.
Qed.

(** When the extraction raises an [Exception], the text of the exception goes
    to [sys.stderr]; the report's message is a fixed string. *)
Lemma run_exception (self : TestCase) (e : exn) :
  clean_content (url self) = Raised e → is_Exception e = true →
  run self =
    ("Exception on " +:+ url self +:+ " :" +:+ newline +:+ exn_message e,
     Ok {[ "url" := PStr (url self);
           "status" := PStr "EXCEPTION";
           "message" := PStr "e.message" ]}).
Proof. intros He Hexc. unfold run. rewrite He. simpl. by rewrite Hexc. Qed.

End RunnerFacts.

(** C4 (the code departs from it). The extraction of the test url raises
    [Exception("boom")]. [run] returns a report with status [EXCEPTION], but
    the report's message is the string [e.message], not the text [boom] of
    the exception, which only goes to [sys.stderr]. *)
Theorem run_report_message_is_literal :
  let report : gmap string pyval :=
    {[ "url" := PStr "http://example.com/a";
       "status" := PStr "EXCEPTION";
       "message" := PStr "e.message" ]} in
  run (λ _, Raised boom) failing_case =
    ("Exception on http://example.com/a :" +:+ newline +:+ "boom", Ok report) ∧
  report !! "message" = Some (PStr "e.message") ∧
  report !! "message" ≠ Some (PStr (exn_message boom)) ∧
  ∀ k v, report !! k = Some v → v ≠ PStr (exn_message boom).
Proof.
  split; [reflexivity|]. split; [reflexivity|]. split; [done|].
  intros k v Hk.
  destruct (decide (k = "url")) as [->|?]; [by simplify_map_eq|].
  destruct (decide (k = "status")) as [->|?]; [by simplify_map_eq|].
  destruct (decide (k = "message")) as [->|?]; [by simplify_map_eq|].
  by simplify_map_eq.
Qed.

(** ** Find and replace *)

Example find_replace_two_pairs :
  _find_replace {[ "find_replace" := Pairs [("a", "b"); ("b", "c")] ]} "aab"
  = "ccc".
Proof. reflexivity. Qed.

Lemma startswith_append (p s : string) : Str.startswith p (p +:+ s) = true.
Proof.
  induction p as [|a p IH]; simpl; [done|].
  by rewrite Ascii.eqb_refl.
Qed.

Lemma replace_scan_skip (old new p s : string) :
  Str.replace_scan old new (String.length p) (p +:+ s)
  = Str.replace_scan old new 0 s.
Proof.
  induction p as [|a p IH]; simpl; [|done].
  by destruct s.
Qed.

Lemma replace_at_match (old new s : string) :
  old ≠ "" → Str.replace (old +:+ s) old new = new +:+ Str.replace s old new.
Proof.
  destruct old as [|a old]; [done|]. intros _.
  unfold Str.replace.
  change (String a old +:+ s) with (String a (old +:+ s)).
  cbn [Str.replace_scan].
  change (String a (old +:+ s)) with (String a old +:+ s).
  rewrite startswith_append.
  replace (String.length (String a old) - 1) with (String.length old)
    by (simpl; lia).
  by rewrite replace_scan_skip.
Qed.

Lemma replace_no_match (old new : string) (c : ascii) (s : string) :
  old ≠ "" → Str.startswith old (String c s) = false →
  Str.replace (String c s) old new = String c (Str.replace s old new).
Proof.
  destruct old as [|a old]; [done|]. intros _ Hno.
  unfold Str.replace. cbn [Str.replace_scan]. by rewrite Hno.
Qed.

Lemma find_replace_pairs_fold (pairs : list (string * string)) :
  ∀ source,
    find_replace_pairs pairs source
    = fold_left (λ text p, Str.replace text p.1 p.2) pairs source.
Proof.
  induction pairs as [|[find replace] pairs IH]; intros source; [done|].
  simpl. apply IH.
Qed.

Lemma find_replace_pairs_app (pairs1 pairs2 : list (string * string)) :
  ∀ source,
    find_replace_pairs (pairs1 ++ pairs2) source
    = find_replace_pairs pairs2 (find_replace_pairs pairs1 source).
Proof.
  induction pairs1 as [|[find replace] pairs1 IH]; intros source; [done|].
  simpl. apply IH.
Qed.

(** C7. [_find_replace] applies the pairs in order, each to the text the
    previous ones produced. One replacement is a literal left-to-right scan,
    for every find string. For a find string that is not empty: where the
    text starts with it the replacement is emitted and the scan resumes
    after the matched text, elsewhere the character is copied; what has been
    emitted is not scanned again, so replacing [ab] by [abab] in [ab] gives
    [abab]. For the empty find string, which matches before every character
    and at the end, the replacement is emitted at each of these places, once,
    and the characters are copied. *)
Theorem find_replace_single_pass :
  (∀ spec source,
     _find_replace spec source
     = fold_left (λ text p, Str.replace text p.1 p.2)
         (spec_pairs spec "find_replace") source) ∧
  (∀ pairs1 pairs2 source,
     find_replace_pairs (pairs1 ++ pairs2) source
     = find_replace_pairs pairs2 (find_replace_pairs pairs1 source)) ∧
  (∀ find replace s, find ≠ "" →
     Str.replace (find +:+ s) find replace
     = replace +:+ Str.replace s find replace) ∧
  (∀ find replace c s, find ≠ "" →
     Str.startswith find (String c s) = false →
     Str.replace (String c s) find replace
     = String c (Str.replace s find replace)) ∧
  (∀ find replace, find ≠ "" → Str.replace "" find replace = "") ∧
  (∀ find replace, find ≠ "" → Str.replace find find replace = replace) ∧
  (∀ replace, Str.replace "" "" replace = replace) ∧
  (∀ replace c s,
     Str.replace (String c s) "" replace
     = replace +:+ String c (Str.replace s "" replace)) ∧
  (∀ replace s,
     String.length (Str.replace s "" replace)
     = String.length s + (String.length s + 1) * String.length replace) ∧
  _find_replace {[ "find_replace" := Pairs [("ab", "abab")] ]} "ab" = "abab" ∧
  _find_replace {[ "find_replace" := Pairs [("", "-")] ]} "ab" = "-a-b-" ∧
  _find_replace {[ "find_replace" := Pairs [("a", "b"); ("b", "c")] ]} "ab"
  = "cc".
Proof.
  split; [intros; apply find_replace_pairs_fold|].
  split; [intros; apply find_replace_pairs_app|].
  split; [intros; by apply replace_at_match|].
  split; [intros; by apply replace_no_match|].
  split; [by intros [|a find] replace|].
  split.
  { intros find replace Hne.
    assert (find = find +:+ "") as Heq.
    { clear. induction find as [|a f IH]; simpl; [done|]. by rewrite <- IH. }
    rewrite Heq at 1. rewrite replace_at_match by done.
    destruct find as [|a f]; [done|]. simpl.
    clear. induction replace as [|b r IH]; simpl; [done|]. by rewrite IH. }
  split; [done|]. split; [done|].
  split; [|split; [reflexivity|split; reflexivity]].
  intros replace s. unfold Str.replace.
  induction s as [|c s IH]; simpl; [lia|].
  rewrite length_append. simpl. rewrite IH. lia.
Qed.

(** ** Facts about trees *)

(** Induction over a tree, with the hypothesis for every child. *)
Lemma node_tree_ind (P : node → Prop) :
  (∀ i t a x cs tl, Forall P cs → P (Node i t a x cs tl)) → ∀ n, P n.
Proof.
  intros step. fix IH 1. intros [i t a x cs tl]. apply step.
  induction cs as [|c cs IHcs]; constructor; [apply IH|apply IHcs].
Qed.

Lemma set_tail_same (n : node) : set_tail n (tail_of n) = n.
Proof. by destruct n. Qed.

Lemma nodes_set_tail (n : node) (tl : string) :
  nodes (set_tail n tl) = set_tail n tl :: flat_map nodes (children_of n).
Proof. by destruct n. Qed.

Lemma nodes_unfold (n : node) :
  nodes n = n :: flat_map nodes (children_of n).
Proof. by destruct n. Qed.

Lemma ids_set_tail (n : node) (tl : string) : ids (set_tail n tl) = ids n.
Proof. by destruct n. Qed.

Lemma node_in_nodes (n : node) : n ∈ nodes n.
Proof. rewrite nodes_unfold. apply elem_of_cons. by left. Qed.

Lemma node_id_in_ids (n : node) : node_id n ∈ ids n.
Proof. apply list_elem_of_fmap. exists n. split; [done|apply node_in_nodes]. Qed.

Lemma elem_of_flat_map {A B : Type} (f : A → list B) (l : list A) (y : B) :
  y ∈ flat_map f l ↔ ∃ x, x ∈ l ∧ y ∈ f x.
Proof.
  rewrite list_elem_of_In, in_flat_map.
  by setoid_rewrite list_elem_of_In.
Qed.

(** The nodes of a subtree are nodes of the tree. *)
Lemma nodes_subtree (t m : node) : m ∈ nodes t → nodes m ⊆ nodes t.
Proof.
  induction t as [i tg a x cs tl IH] using node_tree_ind.
  rewrite nodes_unfold. simpl. intros [->|Hm]%elem_of_cons.
  - by rewrite nodes_unfold.
  - apply elem_of_flat_map in Hm as (c & Hc & Hm).
    rewrite Forall_forall in IH. specialize (IH c Hc Hm).
    intros n Hn. apply elem_of_cons. right.
    apply elem_of_flat_map. exists c. split; [done|by apply IH].
Qed.

Lemma drop_desc_id (i : nat) (n : node) : node_id (drop_desc i n) = node_id n.
Proof.
  destruct n as [j t a x cs tl]. simpl.
  destruct (is_child i cs); [|done]. by destruct (drop_child i x cs).
Qed.

Lemma drop_desc_tag (i : nat) (n : node) : tag_of (drop_desc i n) = tag_of n.
Proof.
  destruct n as [j t a x cs tl]. simpl.
  destruct (is_child i cs); [|done]. by destruct (drop_child i x cs).
Qed.

Lemma drop_desc_attrib (i : nat) (n : node) :
  attrib_of (drop_desc i n) = attrib_of n.
Proof.
  destruct n as [j t a x cs tl]. simpl.
  destruct (is_child i cs); [|done]. by destruct (drop_child i x cs).
Qed.

Lemma drop_desc_tail (i : nat) (n : node) :
  tail_of (drop_desc i n) = tail_of n.
Proof.
  destruct n as [j t a x cs tl]. simpl.
  destruct (is_child i cs); [|done]. by destruct (drop_child i x cs).
Qed.

(** ** What a node keeps *)

Lemma same_element_refl (n : node) : same_element n n.
Proof. by repeat split. Qed.

Lemma same_element_trans (a b c : node) :
  same_element a b → same_element b c → same_element a c.
Proof.
  intros (? & ? & ? & ? & ?) (? & ? & ? & ? & ?).
  repeat split; [congruence..|by etrans].
Qed.

Lemma same_element_set_tail (n : node) (tl : string) :
  same_element n (set_tail n tl).
Proof. destruct n. by repeat split. Qed.

Lemma preserved_subset (before after : list node) :
  after ⊆ before → preserved before after.
Proof. intros Hsub n' Hn'. exists n'. split; [by apply Hsub|apply same_element_refl]. Qed.

Lemma preserved_trans (a b c : list node) :
  preserved a b → preserved b c → preserved a c.
Proof.
  intros Hab Hbc n'' Hn''.
  destruct (Hbc n'' Hn'') as (n' & Hn' & H2).
  destruct (Hab n' Hn') as (n & Hn & H1).
  exists n. split; [done|by eapply same_element_trans].
Qed.

Lemma preserved_app (before a1 a2 : list node) :
  preserved before a1 → preserved before a2 → preserved before (a1 ++ a2).
Proof. intros H1 H2 n' [?|?]%elem_of_app; auto. Qed.

Lemma preserved_mono (b1 b2 after : list node) :
  b1 ⊆ b2 → preserved b1 after → preserved b2 after.
Proof.
  intros Hsub H n' Hn'. destruct (H n' Hn') as (n & Hn & Hs).
  exists n. split; [by apply Hsub|done].
Qed.

Lemma drop_after_tails (i : nat) (prev : node) (cs : list node) :
  tails (drop_after i prev cs) = tail_of prev +:+ tails cs.
Proof.
  revert prev. induction cs as [|c cs IH]; intros prev; simpl; [done|].
  destruct (node_id c =? i); simpl.
  - destruct prev. simpl. by rewrite append_assoc.
  - by rewrite IH.
Qed.

Lemma drop_after_ids (i : nat) (prev : node) (cs : list node) :
  map node_id (drop_after i prev cs) `sublist_of` node_id prev :: map node_id cs.
Proof.
  revert prev. induction cs as [|c cs IH]; intros prev; simpl; [done|].
  destruct (node_id c =? i); simpl.
  - destruct prev. simpl. apply sublist_skip. by apply sublist_cons.
  - apply sublist_skip, IH.
Qed.

Lemma drop_after_variant (i : nat) (prev : node) (cs : list node) (c' : node) :
  c' ∈ drop_after i prev cs → ∃ c tl, c ∈ prev :: cs ∧ c' = set_tail c tl.
Proof.
  revert prev. induction cs as [|c cs IH]; intros prev; simpl.
  - intros ->%list_elem_of_singleton. exists prev, (tail_of prev).
    split; [by left|by rewrite set_tail_same].
  - destruct (node_id c =? i).
    + intros [->|Hc']%elem_of_cons.
      * eexists prev, _. split; [by left|done].
      * exists c', (tail_of c'). split; [|by rewrite set_tail_same].
        by do 2 right.
    + intros [->|Hc']%elem_of_cons.
      * exists prev, (tail_of prev). split; [by left|by rewrite set_tail_same].
      * destruct (IH _ Hc') as (c0 & tl & Hc0 & ->).
        exists c0, tl. split; [by right|done].
Qed.

Lemma drop_child_own_text (i : nat) (x : string) (cs : list node) :
  (drop_child i x cs).1 +:+ tails (drop_child i x cs).2 = x +:+ tails cs.
Proof.
  destruct cs as [|c cs]; simpl; [done|].
  destruct (node_id c =? i); simpl.
  - by rewrite append_assoc.
  - by rewrite drop_after_tails.
Qed.

Lemma drop_child_ids (i : nat) (x : string) (cs : list node) :
  map node_id (drop_child i x cs).2 `sublist_of` map node_id cs.
Proof.
  destruct cs as [|c cs]; simpl; [done|].
  destruct (node_id c =? i); simpl.
  - by apply sublist_cons.
  - apply drop_after_ids.
Qed.

Lemma drop_child_variant (i : nat) (x : string) (cs : list node) (c' : node) :
  c' ∈ (drop_child i x cs).2 → ∃ c tl, c ∈ cs ∧ c' = set_tail c tl.
Proof.
  destruct cs as [|c cs]; simpl; [by intros ?%elem_of_nil|].
  destruct (node_id c =? i); simpl.
  - intros Hc'. exists c', (tail_of c').
    split; [by right|by rewrite set_tail_same].
  - apply drop_after_variant.
Qed.

Lemma tails_drop_desc (i : nat) (cs : list node) :
  tails (map (drop_desc i) cs) = tails cs.
Proof.
  induction cs as [|c cs IH]; simpl; [done|].
  by rewrite drop_desc_tail, IH.
Qed.

Lemma ids_of_map_drop_desc (i : nat) (cs : list node) :
  map node_id (map (drop_desc i) cs) = map node_id cs.
Proof.
  induction cs as [|c cs IH]; simpl; [done|].
  by rewrite drop_desc_id, IH.
Qed.

(** Dropping a subtree changes no node that stays. *)
Lemma drop_desc_preserved (i : nat) (t : node) :
  preserved (nodes t) (nodes (drop_desc i t)).
Proof.
  induction t as [j tg a x cs tl IH] using node_tree_ind.
  simpl. destruct (is_child i cs) eqn:Hchild.
  - pose proof (drop_child_own_text i x cs) as Htext.
    pose proof (drop_child_ids i x cs) as Hids.
    pose proof (drop_child_variant i x cs) as Hvar.
    destruct (drop_child i x cs) as [x' cs']. simpl in *.
    intros n' [->|Hn']%elem_of_cons.
    + exists (Node j tg a x cs tl). split; [by left|]. by repeat split.
    + apply elem_of_flat_map in Hn' as (c' & Hc' & Hn').
      destruct (Hvar c' Hc') as (c & tl' & Hc & ->).
      rewrite nodes_set_tail in Hn'.
      apply elem_of_cons in Hn' as [->|Hn'].
      * exists c. split; [|apply same_element_set_tail].
        right. apply elem_of_flat_map. exists c. split; [done|apply node_in_nodes].
      * exists n'. split; [|apply same_element_refl].
        right. apply elem_of_flat_map. exists c. split; [done|].
        rewrite nodes_unfold. by right.
  - intros n' [->|Hn']%elem_of_cons.
    + exists (Node j tg a x cs tl). split; [by left|].
      repeat split; simpl.
      * unfold own_text. simpl. by rewrite tails_drop_desc.
      * by rewrite ids_of_map_drop_desc.
    + apply elem_of_flat_map in Hn' as (c' & Hc' & Hn').
      apply list_elem_of_fmap in Hc' as (c & -> & Hc).
      rewrite Forall_forall in IH.
      destruct (IH c Hc n' Hn') as (n & Hn & Hsame).
      exists n. split; [|done].
      right. apply elem_of_flat_map. by exists c.
Qed.

(** ** States reached by dropping subtrees *)

Lemma bind_Ok {A B : Type} (r : result A) (k : A → result B) (b : B) :
  bind r k = Ok b → ∃ a, r = Ok a ∧ k a = Ok b.
Proof. destruct r as [a|e]; simpl; [by exists a|done]. Qed.

Lemma frame_refl (d : dom) : frame d d.
Proof. split; by apply preserved_subset. Qed.

Lemma frame_trans (a b c : dom) : frame a b → frame b c → frame a c.
Proof. intros [? ?] [? ?]. split; by eapply preserved_trans. Qed.

Lemma find_node_Some (i : nat) (d : dom) (e : node) :
  find_node i d = Some e → e ∈ dom_nodes d ∧ node_id e = i.
Proof.
  unfold find_node. intros [Hin Heq]%find_some.
  split; [by apply list_elem_of_In|by apply Nat.eqb_eq].
Qed.

Lemma preserved_flat_map (f : node → node) (ts : list node) :
  (∀ t, preserved (nodes t) (nodes (f t))) →
  preserved (flat_map nodes ts) (flat_map nodes (map f ts)).
Proof.
  intros Hf n' Hn'. apply elem_of_flat_map in Hn' as (t' & Ht' & Hn').
  apply list_elem_of_fmap in Ht' as (t & -> & Ht).
  destruct (Hf t n' Hn') as (n & Hn & Hsame).
  exists n. split; [|done]. apply elem_of_flat_map. by exists t.
Qed.

Lemma dom_nodes_subtree (d : dom) (e : node) :
  e ∈ dom_nodes d → nodes e ⊆ dom_nodes d.
Proof.
  intros He n Hn. apply elem_of_flat_map in He as (t & Ht & He).
  apply elem_of_flat_map. exists t. split; [done|].
  by apply (nodes_subtree t e).
Qed.

Lemma drop_tree_frame (i : nat) (d d' : dom) :
  drop_tree i d = Ok d' → frame d d'.
Proof.
  unfold drop_tree. case_bool_decide; [done|].
  destruct (find_node i d) as [e|] eqn:Hfind.
  - intros [= <-]. apply find_node_Some in Hfind as [He _].
    split; simpl; [apply drop_desc_preserved|].
    unfold dom_nodes, trees. simpl.
    apply preserved_app.
    + eapply preserved_mono; [|apply drop_desc_preserved].
      intros n Hn. apply elem_of_app. by left.
    + rewrite flat_map_app. apply preserved_app.
      * eapply preserved_mono; [|apply preserved_flat_map, drop_desc_preserved].
        intros n Hn. apply elem_of_app. by right.
      * simpl. rewrite app_nil_r. apply preserved_subset.
        by apply dom_nodes_subtree.
  - intros [= <-]. apply frame_refl.
Qed.

Lemma drop_seq_frame (l : list nat) (d d' : dom) :
  drop_seq l d = Ok d' → frame d d'.
Proof.
  revert d. induction l as [|i l IH]; intros d; simpl.
  - intros [= <-]. apply frame_refl.
  - intros (d1 & H1 & H2)%bind_Ok.
    eapply frame_trans; [by eapply drop_tree_frame|by apply IH].
Qed.

Lemma only_drops_refl (d : dom) : only_drops d d.
Proof. by exists []. Qed.

Lemma drop_seq_app (l1 l2 : list nat) (d d1 d2 : dom) :
  drop_seq l1 d = Ok d1 → drop_seq l2 d1 = Ok d2 →
  drop_seq (l1 ++ l2) d = Ok d2.
Proof.
  revert d. induction l1 as [|i l1 IH]; intros d; simpl.
  - by intros [= <-].
  - intros (d' & H1 & H2)%bind_Ok H3. rewrite H1. simpl. by apply IH.
Qed.

Lemma only_drops_trans (a b c : dom) :
  only_drops a b → only_drops b c → only_drops a c.
Proof.
  intros [l1 H1] [l2 H2]. exists (l1 ++ l2). by eapply drop_seq_app.
Qed.

Lemma only_drops_frame (d d' : dom) : only_drops d d' → frame d d'.
Proof. intros [l Hl]. by eapply drop_seq_frame. Qed.

Lemma drop_tree_only_drops (i : nat) (d d' : dom) :
  drop_tree i d = Ok d' → only_drops d d'.
Proof. intros H. exists [i]. simpl. by rewrite H. Qed.

Lemma drop_all_only_drops (items : list xitem) (d d' : dom) :
  drop_all items d = Ok d' → only_drops d d'.
Proof.
  revert d. induction items as [|[i|s] items IH]; intros d; simpl.
  - intros [= <-]. apply only_drops_refl.
  - intros (d1 & H1 & H2)%bind_Ok.
    eapply only_drops_trans; [by eapply drop_tree_only_drops|by apply IH].
  - done.
Qed.

Lemma drop_by_xpath_only_drops (eval : dom → result (list xitem)) (d d' : dom) :
  _drop_by_xpath d eval = Ok d' → only_drops d d'.
Proof.
  unfold _drop_by_xpath. intros (items & _ & H)%bind_Ok.
  by eapply drop_all_only_drops.
Qed.

Lemma prune_visit_each (limit : Q) (cs : list node) (d : dom) :
  (fix visit (cs : list node) (d : dom) : result dom :=
     match cs with
     | [] => Ok d
     | child :: rest =>
         if is_element child
         then d' ⇐ prune_element limit child d; visit rest d'
         else visit rest d
     end) cs d = prune_each limit cs d.
Proof.
  revert d. induction cs as [|c cs IH]; intros d; simpl; [done|].
  destruct (is_element c); [|apply IH].
  destruct (prune_element limit c d); simpl; [apply IH|done].
Qed.

(** [prune_element], one call deep. *)
Lemma prune_element_eq (limit : Q) (e : node) (d : dom) :
  prune_element limit e d =
    d1 ⇐ prune_each limit (children_of e) d;
    match find_node (node_id e) d1 with
    | None => Ok d1
    | Some e1 =>
        if (0 <? length (children_of e1))%nat then Ok d1
        else if should_drop e1 limit then drop_tree (node_id e) d1
        else Ok d1
    end.
Proof. destruct e as [i t a x cs tl]. simpl. by rewrite prune_visit_each. Qed.

Lemma prune_element_only_drops (limit : Q) (e : node) :
  ∀ d d', prune_element limit e d = Ok d' → only_drops d d'.
Proof.
  induction e as [i t a x cs tl IH] using node_tree_ind.
  intros d d'. rewrite prune_element_eq. simpl.
  intros (d1 & H1 & H2)%bind_Ok.
  assert (only_drops d d1) as Hd1.
  { clear H2. revert d H1. induction cs as [|c cs IHcs]; intros d; simpl.
    - intros [= <-]. apply only_drops_refl.
    - apply Forall_cons in IH as [Hc Hcs].
      destruct (is_element c); [|by apply IHcs].
      intros (d2 & H2 & H3)%bind_Ok.
      eapply only_drops_trans; [by eapply Hc|by apply IHcs]. }
  eapply only_drops_trans; [exact Hd1|].
  destruct (find_node i d1) as [e1|]; [|injection H2 as <-; apply only_drops_refl].
  destruct (0 <? length (children_of e1))%nat;
    [injection H2 as <-; apply only_drops_refl|].
  destruct (should_drop e1 limit);
    [by eapply drop_tree_only_drops|injection H2 as <-; apply only_drops_refl].
Qed.

Lemma prune_each_only_drops (limit : Q) (cs : list node) (d d' : dom) :
  prune_each limit cs d = Ok d' → only_drops d d'.
Proof.
  revert d. induction cs as [|c cs IH]; intros d; simpl.
  - intros [= <-]. apply only_drops_refl.
  - destruct (is_element c); [|by apply IH].
    intros (d2 & H2 & H3)%bind_Ok.
    eapply only_drops_trans; [by eapply prune_element_only_drops|by apply IH].
Qed.

(** *** Identities *)

Lemma ids_unfold (n : node) :
  ids n = node_id n :: flat_map ids (children_of n).
Proof.
  unfold ids at 1. rewrite nodes_unfold. simpl. f_equal.
  induction (children_of n) as [|c cs IH]; simpl; [done|].
  by rewrite map_app, IH.
Qed.

Lemma is_child_true (i : nat) (cs : list node) :
  is_child i cs = true ↔ ∃ c, c ∈ cs ∧ node_id c = i.
Proof.
  unfold is_child. rewrite existsb_exists. split.
  - intros (c & Hc & Heq). exists c.
    split; [by apply list_elem_of_In|by apply Nat.eqb_eq].
  - intros (c & Hc & Heq). exists c.
    split; [by apply list_elem_of_In|by apply Nat.eqb_eq].
Qed.

Lemma is_child_in_ids (i : nat) (cs : list node) :
  is_child i cs = true → i ∈ flat_map ids cs.
Proof.
  intros (c & Hc & <-)%is_child_true.
  apply elem_of_flat_map. exists c. split; [done|apply node_id_in_ids].
Qed.

Lemma drop_after_flat_ids (i : nat) (prev : node) (cs : list node) :
  flat_map ids (drop_after i prev cs) `sublist_of` flat_map ids (prev :: cs).
Proof.
  revert prev. induction cs as [|c cs IH]; intros prev; simpl; [done|].
  destruct (node_id c =? i); simpl.
  - rewrite ids_set_tail. apply sublist_app; [done|]. by apply sublist_inserts_l.
  - apply sublist_app; [done|]. apply IH.
Qed.

Lemma drop_desc_ids_sublist (i : nat) (t : node) :
  ids (drop_desc i t) `sublist_of` ids t.
Proof.
  induction t as [j tg a x cs tl IH] using node_tree_ind.
  simpl. destruct (is_child i cs).
  - destruct cs as [|c cs]; simpl; [done|].
    destruct (node_id c =? i); simpl; rewrite !ids_unfold; simpl;
      apply sublist_skip.
    + by apply sublist_inserts_l.
    + apply (drop_after_flat_ids i c cs).
  - rewrite !ids_unfold. simpl. apply sublist_skip.
    induction cs as [|c cs IHcs]; simpl; [done|].
    apply Forall_cons in IH as [Hc Hcs].
    apply sublist_app; [done|by apply IHcs].
Qed.

Lemma drop_after_removes (i : nat) (prev : node) (cs : list node) :
  NoDup (flat_map ids (prev :: cs)) → is_child i cs = true →
  i ∉ flat_map ids (drop_after i prev cs).
Proof.
  revert prev. induction cs as [|c cs IH]; intros prev Hnd Hchild; [done|].
  simpl in *. apply NoDup_app in Hnd as (Hprev & Hsep & Hrest).
  destruct (Nat.eqb_spec (node_id c) i) as [<-|Hne]; simpl.
  - rewrite ids_set_tail. intros [Hin|Hin]%elem_of_app.
    + apply (Hsep _ Hin). apply elem_of_app. left. apply node_id_in_ids.
    + apply NoDup_app in Hrest as (_ & Hsep' & _).
      by apply (Hsep' _ (node_id_in_ids c)).
  - intros [Hin|Hin]%elem_of_app.
    + apply (Hsep _ Hin). apply elem_of_app. right.
      by apply is_child_in_ids.
    + by apply (IH c).
Qed.

(** After [drop_desc i] the identity [i] is no longer in the tree. *)
Lemma drop_desc_removes (i : nat) (t : node) :
  NoDup (ids t) → i ≠ node_id t → i ∉ ids (drop_desc i t).
Proof.
  induction t as [j tg a x cs tl IH] using node_tree_ind.
  rewrite ids_unfold. simpl. intros [Hj Hnd]%NoDup_cons Hne.
  destruct (is_child i cs) eqn:Hchild.
  - destruct cs as [|c cs]; [done|]. simpl in *.
    destruct (Nat.eqb_spec (node_id c) i) as [<-|Hc]; simpl in *;
      rewrite ids_unfold; simpl; intros [?|Hin]%elem_of_cons; try done.
    + apply NoDup_app in Hnd as (_ & Hsep & _).
      by apply (Hsep _ (node_id_in_ids c)).
    + by apply (drop_after_removes i c cs).
  - rewrite ids_unfold. simpl. intros [?|Hin]%elem_of_cons; [done|].
    apply elem_of_flat_map in Hin as (c' & Hc' & Hin).
    apply list_elem_of_fmap in Hc' as (c & -> & Hc).
    rewrite Forall_forall in IH. apply (IH c Hc); [| |done].
    + clear -Hnd Hc. induction cs as [|c0 cs IHcs]; [by apply elem_of_nil in Hc|].
      simpl in Hnd. apply NoDup_app in Hnd as (? & _ & ?).
      apply elem_of_cons in Hc as [->|Hc]; auto.
    + intros ->. apply not_true_iff_false in Hchild. apply Hchild.
      apply is_child_true. by exists c.
Qed.

(** Dropping an identity that is not in the tree changes nothing. *)
Lemma drop_desc_absent (i : nat) (t : node) :
  i ∉ ids t → drop_desc i t = t.
Proof.
  induction t as [j tg a x cs tl IH] using node_tree_ind.
  rewrite ids_unfold. simpl. intros Hnot.
  apply not_elem_of_cons in Hnot as [Hj Hnot].
  destruct (is_child i cs) eqn:Hchild.
  - by apply is_child_in_ids in Hchild.
  - f_equal. induction cs as [|c cs IHcs]; simpl; [done|].
    apply Forall_cons in IH as [Hc Hcs]. simpl in *.
    apply not_elem_of_app in Hnot as [Hnc Hncs].
    apply orb_false_iff in Hchild as [_ Hchild].
    rewrite Hc by done. f_equal. by apply IHcs.
Qed.

Lemma NoDup_map_inj {A B : Type} (f : A → B) (l : list A) (x y : A) :
  NoDup (map f l) → x ∈ l → y ∈ l → f x = f y → x = y.
Proof.
  induction l as [|a l IH]; simpl; [by intros _ ?%elem_of_nil|].
  intros [Ha Hnd]%NoDup_cons [->|Hx]%elem_of_cons [->|Hy]%elem_of_cons Heq;
    [done| | |by apply IH].
  - exfalso. apply Ha. rewrite Heq. apply list_elem_of_fmap. by exists y.
  - exfalso. apply Ha. rewrite <- Heq. apply list_elem_of_fmap. by exists x.
Qed.

Lemma nodes_id_inj (t n m : node) :
  NoDup (ids t) → n ∈ nodes t → m ∈ nodes t → node_id n = node_id m → n = m.
Proof. apply NoDup_map_inj. Qed.

(** ** Dropping selected nodes from the document *)

Lemma shrinks_refl (t : node) : shrinks t t.
Proof. repeat split; [done|by apply preserved_subset]. Qed.

Lemma shrinks_trans (a b c : node) : shrinks a b → shrinks b c → shrinks a c.
Proof.
  intros (? & ? & ? & ? & ?) (? & ? & ? & ? & ?).
  repeat split; [congruence..|by etrans|by eapply preserved_trans].
Qed.

Lemma drop_desc_shrinks (i : nat) (t : node) : shrinks t (drop_desc i t).
Proof.
  repeat split;
    [apply drop_desc_id|apply drop_desc_tag|apply drop_desc_attrib| |
     apply drop_desc_preserved].
  apply sublist_subseteq, drop_desc_ids_sublist.
Qed.

Lemma find_node_None (i : nat) (d : dom) :
  find_node i d = None → i ∉ dom_ids d.
Proof.
  unfold find_node, dom_ids. intros Hnone Hin.
  apply list_elem_of_fmap in Hin as (n & -> & Hn).
  apply list_elem_of_In in Hn.
  pose proof (find_none _ _ Hnone n Hn) as Hneq. simpl in Hneq.
  by rewrite Nat.eqb_refl in Hneq.
Qed.

Lemma document_ids_in_dom (d : dom) : ids (document d) ⊆ dom_ids d.
Proof.
  intros i Hi. unfold dom_ids, dom_nodes, trees. simpl.
  rewrite map_app. apply elem_of_app. by left.
Qed.

(** Dropping distinct nodes that are neither the root of the document nor
    the root of a dropped subtree succeeds and removes each of them. *)
Lemma drop_seq_document (l : list nat) :
  ∀ d, wf_dom d → NoDup l →
    (∀ i, i ∈ l → i ≠ node_id (document d) ∧ i ∉ map node_id (dropped d)) →
    ∃ d', drop_seq l d = Ok d' ∧ wf_dom d' ∧
          shrinks (document d) (document d') ∧
          ∀ i, i ∈ l → i ∉ ids (document d').
Proof.
  induction l as [|i l IH]; intros d Hwf Hnd Hl.
  { exists d. split; [done|]. split; [done|]. split; [apply shrinks_refl|].
    by intros i ?%elem_of_nil. }
  apply NoDup_cons in Hnd as [Hi Hnd].
  destruct (Hl i) as [Hroot Hdropped]; [by left|].
  assert (∃ d1, drop_tree i d = Ok d1 ∧ wf_dom d1 ∧
                shrinks (document d) (document d1) ∧
                (i ∉ ids (document d1)) ∧
                ∀ r, r ∈ map node_id (dropped d1) →
                     r ∈ map node_id (dropped d) ∨ r = i) as
    (d1 & Hdrop & Hwf1 & Hshr1 & Hi1 & Hroots1).
  { unfold drop_tree. rewrite bool_decide_eq_false_2; last first.
    { unfold roots, trees. simpl. intros [?|?]%elem_of_cons; done. }
    destruct Hwf as [Hdoc Hsep].
    destruct (find_node i d) as [e|] eqn:Hfind.
    - apply find_node_Some in Hfind as [_ He].
      eexists. split; [done|]. simpl.
      assert (∀ r, r ∈ map node_id (map (drop_desc i) (dropped d) ++ [e]) →
                   r ∈ map node_id (dropped d) ∨ r = i) as Hr.
      { intros r. rewrite map_app, ids_of_map_drop_desc. simpl.
        intros [?|Hr%list_elem_of_singleton]%elem_of_app;
          [by left|right; congruence]. }
      split; [split|]; simpl.
      + eapply sublist_NoDup; [exact Hdoc|apply drop_desc_ids_sublist].
      + intros r [Hold| ->]%Hr.
        * intros Hin. apply (Hsep r Hold).
          by apply (sublist_subseteq _ _ (drop_desc_ids_sublist i _)).
        * by apply drop_desc_removes.
      + split; [apply drop_desc_shrinks|]. split; [|done].
        by apply drop_desc_removes.
    - exists d. split; [done|]. split; [done|]. split; [apply shrinks_refl|].
      split; [|auto].
      intros Hin. by apply (find_node_None _ _ Hfind), document_ids_in_dom. }
  destruct (IH d1 Hwf1 Hnd) as (d' & Hseq & Hwf' & Hshr' & Hgone).
  { intros i' Hi'. destruct (Hl i') as [Hr Hd]; [by right|].
    destruct Hshr1 as (-> & _). split; [done|].
    intros [?| ->]%Hroots1; done. }
  exists d'. simpl. rewrite Hdrop. simpl.
  split; [done|]. split; [done|]. split; [by eapply shrinks_trans|].
  intros i' [->|Hi']%elem_of_cons; [|by apply Hgone].
  intros Hin. apply Hi1. by apply Hshr'.
Qed.

Lemma drop_all_nodes (l : list nat) (d : dom) :
  drop_all (map XNode l) d = drop_seq l d.
Proof.
  revert d. induction l as [|i l IH]; intros d; simpl; [done|].
  destruct (drop_tree i d); simpl; [apply IH|done].
Qed.

Lemma sublist_map {A B : Type} (f : A → B) (l1 l2 : list A) :
  l1 `sublist_of` l2 → map f l1 `sublist_of` map f l2.
Proof. induction 1; simpl; by constructor. Qed.

(** One evaluation of [_drop_by_xpath] for a selection by a predicate that
    the root of the document does not satisfy. *)
Lemma drop_selected (p : node → bool) (d : dom) :
  wf_dom d → p (document d) = false →
  ∃ d', drop_all (select p d) d = Ok d' ∧ wf_dom d' ∧
        shrinks (document d) (document d') ∧
        ∀ n, n ∈ nodes (document d) → p n = true →
             node_id n ∉ ids (document d').
Proof.
  intros Hwf Hroot.
  set (l := map node_id (filter (λ n, p n = true) (nodes (document d)))).
  assert (select p d = map XNode l) as ->.
  { unfold select, l. by rewrite map_map. }
  rewrite drop_all_nodes.
  destruct (drop_seq_document l d Hwf) as (d' & Hseq & Hwf' & Hshr & Hgone).
  - eapply sublist_NoDup; [apply Hwf|]. apply sublist_map, sublist_filter.
  - intros i Hi. apply list_elem_of_fmap in Hi as (n & -> & Hn).
    apply list_elem_of_filter in Hn as [Hp Hn]. split.
    + intros Heq.
      assert (n = document d) as ->; [|congruence].
      apply (nodes_id_inj (document d)); [apply Hwf|done|apply node_in_nodes|done].
    + intros Hr. apply (proj2 Hwf _ Hr).
      apply list_elem_of_fmap. by exists n.
  - exists d'. split; [done|]. split; [done|]. split; [done|].
    intros n Hn Hp. apply Hgone. apply list_elem_of_fmap. exists n.
    split; [done|]. by apply list_elem_of_filter.
Qed.

(** ** Substrings *)

Lemma startswith_spec (p s : string) :
  Str.startswith p s = true ↔ ∃ post, s = p +:+ post.
Proof.
  revert s. induction p as [|a p IH]; intros s; simpl.
  - split; [by exists s|done].
  - destruct s as [|b s].
    + split; [done|]. by intros [post ?].
    + rewrite andb_true_iff, IH. split.
      * intros [->%Ascii.eqb_eq [post ->]]. by exists post.
      * intros [post [= -> ->]]. split; [apply Ascii.eqb_refl|by exists post].
Qed.

Lemma contains_spec (s sub : string) :
  Str.contains s sub = true ↔ substring_of sub s.
Proof.
  unfold substring_of. induction s as [|c s IH]; simpl.
  - rewrite orb_false_r, startswith_spec. split.
    + intros [post ->]. by exists "", post.
    + intros ([|x pre] & post & Heq); [by exists post|done].
  - rewrite orb_true_iff, startswith_spec, IH. split.
    + intros [[post ->]|(pre & post & ->)].
      * by exists "", post.
      * by exists (String c pre), post.
    + intros ([|x pre] & post & Heq); simpl in Heq.
      * left. by exists post.
      * injection Heq as -> ->. right. by exists pre, post.
Qed.

Lemma matches_id_or_class_spec (v : string) (n : node) :
  matches_id_or_class v n = true ↔
  is_element n = true ∧
  (substring_of v (attribute "class" (attrib_of n)) ∨
   substring_of v (attribute "id" (attrib_of n))).
Proof.
  unfold matches_id_or_class.
  by rewrite andb_true_iff, orb_true_iff, !contains_spec.
Qed.

Lemma matches_id_or_class_same (v : string) (n n' : node) :
  tag_of n' = tag_of n → attrib_of n' = attrib_of n →
  matches_id_or_class v n' = matches_id_or_class v n.
Proof.
  unfold matches_id_or_class, is_element. by intros -> ->.
Qed.

Section Passes.

Variable xpath : dom → nat → string → result (list xitem).

(** The loop of [_strip_id_or_class] over plain values that the root of the
    document does not match. *)
Lemma strip_id_or_class_loop_deletes (etree : nat) (values : list string) :
  ∀ d, wf_dom d →
    Forall (λ value,
      plain_literal (Str.strip quote_chars value) = true ∧
      matches_id_or_class (Str.strip quote_chars value) (document d) = false)
      values →
    ∃ d', strip_id_or_class_loop xpath etree values d = Ok d' ∧ wf_dom d' ∧
          shrinks (document d) (document d') ∧
          ∀ value n, value ∈ values → n ∈ nodes (document d) →
            matches_id_or_class (Str.strip quote_chars value) n = true →
            node_id n ∉ ids (document d').
Proof.
  induction values as [|value values IH]; intros d Hwf Hvalues.
  { exists d. split; [done|]. split; [done|]. split; [apply shrinks_refl|].
    by intros v n ?%elem_of_nil. }
  apply Forall_cons in Hvalues as [[Hplain Hroot] Hvalues].
  destruct (drop_selected _ d Hwf Hroot) as (d1 & Hdrop & Hwf1 & Hshr1 & Hgone1).
  destruct (IH d1 Hwf1) as (d' & Hloop & Hwf' & Hshr' & Hgone').
  { eapply Forall_impl; [exact Hvalues|]. intros v [Hp Hr]. split; [done|].
    rewrite <- Hr. destruct Hshr1 as (_ & Htag & Hattr & _).
    by apply matches_id_or_class_same. }
  exists d'. simpl. unfold _drop_by_xpath, eval_id_or_class.
  rewrite Hplain. simpl. rewrite Hdrop. simpl.
  split; [done|]. split; [done|]. split; [by eapply shrinks_trans|].
  intros v n [->|Hv]%elem_of_cons Hn Hmatch.
  - intros Hin. apply (Hgone1 n Hn Hmatch). by apply Hshr'.
  - intros Hin.
    assert (node_id n ∈ ids (document d1)) as Hin1 by by apply Hshr'.
    apply list_elem_of_fmap in Hin1 as (n1 & Hid & Hn1).
    destruct Hshr1 as (_ & _ & _ & _ & Hpres).
    destruct (Hpres n1 Hn1) as (n0 & Hn0 & Hsame).
    assert (n0 = n) as ->.
    { apply (nodes_id_inj (document d)); [apply Hwf|done..|].
      destruct Hsame as (Heq & _). congruence. }
    destruct Hsame as (_ & Htag & Hattr & _).
    apply (Hgone' v n1 Hv Hn1); [|by rewrite <- Hid].
    rewrite <- Hmatch. by apply matches_id_or_class_same.
Qed.

Lemma strip_id_or_class_loop_app (etree : nat) (values1 values2 : list string) :
  ∀ d, strip_id_or_class_loop xpath etree (values1 ++ values2) d =
       d1 ⇐ strip_id_or_class_loop xpath etree values1 d;
       strip_id_or_class_loop xpath etree values2 d1.
Proof.
  induction values1 as [|v values1 IH]; intros d; [done|].
  simpl. destruct (_drop_by_xpath d _) as [d1|e]; simpl; [apply IH|done].
Qed.

(** C8. The pass does not delete every element that matches. Its
    expression is absolute and selects in the whole document, so the root
    element is selected when its [class] or [id] contains a configured
    value; the root has no parent, [drop_tree] asserts that it has one, and
    the pass ends there with an [AssertionError]: neither the root nor any
    other match of that value is deleted, and the values after it are not
    looked at. This is so wherever the value stands in the list, once the
    values before it went through. *)
Theorem strip_id_or_class_matching_root_raises
  (spec : rules) (etree : nat) (d : dom)
  (before : list string) (value : string) (after : list string) :
  wf_dom d →
  spec_values spec "strip_id_or_class" = before ++ value :: after →
  Forall (λ value,
    plain_literal (Str.strip quote_chars value) = true ∧
    matches_id_or_class (Str.strip quote_chars value) (document d) = false)
    before →
  plain_literal (Str.strip quote_chars value) = true →
  is_element (document d) = true →
  substring_of (Str.strip quote_chars value)
    (attribute "class" (attrib_of (document d))) ∨
  substring_of (Str.strip quote_chars value)
    (attribute "id" (attrib_of (document d))) →
  _strip_id_or_class xpath spec etree d = Raised (MkExn AssertionError "").
Proof.
  intros Hwf Hvalues Hbefore Hplain Helem Hsub.
  unfold _strip_id_or_class. rewrite Hvalues, strip_id_or_class_loop_app.
  destruct (strip_id_or_class_loop_deletes etree before d Hwf Hbefore)
    as (d1 & -> & _ & (_ & Htag & Hattr & _) & _).
  cbn [bind strip_id_or_class_loop].
  unfold _drop_by_xpath, eval_id_or_class. rewrite Hplain. cbn [bind].
  assert (matches_id_or_class (Str.strip quote_chars value) (document d1)
          = true) as Hroot.
  { rewrite (matches_id_or_class_same _ (document d)) by done.
    by apply matches_id_or_class_spec. }
  unfold select. rewrite nodes_unfold, filter_cons_True by done.
  cbn [map drop_all]. unfold drop_tree.
  rewrite bool_decide_eq_true_2; [done|].
  unfold roots, trees. simpl. by left.
Qed.

Lemma strip_nodes_loop_only_drops (etree : nat) (xpaths : list string) :
  ∀ d d', strip_nodes_loop xpath etree xpaths d = Ok d' → only_drops d d'.
Proof.
  induction xpaths as [|expr xpaths IH]; intros d d'; simpl.
  - intros [= <-]. apply only_drops_refl.
  - intros (d1 & H1 & H2)%bind_Ok.
    eapply only_drops_trans; [by eapply drop_by_xpath_only_drops|by apply IH].
Qed.

Lemma strip_id_or_class_loop_only_drops (etree : nat) (values : list string) :
  ∀ d d', strip_id_or_class_loop xpath etree values d = Ok d' →
          only_drops d d'.
Proof.
  induction values as [|v values IH]; intros d d'; simpl.
  - intros [= <-]. apply only_drops_refl.
  - intros (d1 & H1 & H2)%bind_Ok.
    eapply only_drops_trans; [by eapply drop_by_xpath_only_drops|by apply IH].
Qed.

Lemma strip_image_src_loop_only_drops (etree : nat) (values : list string) :
  ∀ d d', strip_image_src_loop xpath etree values d = Ok d' →
          only_drops d d'.
Proof.
  induction values as [|v values IH]; intros d d'; simpl.
  - intros [= <-]. apply only_drops_refl.
  - intros (d1 & H1 & H2)%bind_Ok.
    eapply only_drops_trans; [by eapply drop_by_xpath_only_drops|by apply IH].
Qed.

Lemma maybe_prune_only_drops (spec : rules) (elem : nat) (d d' : dom) :
  _maybe_prune spec elem d = Ok d' → only_drops d d'.
Proof.
  unfold _maybe_prune.
  destruct (spec_is_not_False spec "prune");
    [|intros [= <-]; apply only_drops_refl].
  destruct (find_node elem d); [|intros [= <-]; apply only_drops_refl].
  apply prune_each_only_drops.
Qed.

(** C10 (amended). The four body passes are sequences of [drop_tree] calls.
    In every state they reach, each node, in the document or in a dropped
    subtree, is a node of the state the passes started from, with the same
    tag, the same attributes, the same character data of its own (its [text]
    and the tails of its children, taken together) and with children that
    are children it had, in the same order; the same holds of the nodes
    still in the document. The [text] and the [tail] of a node are not kept
    one by one: [drop_tree] joins the tail of a removed element to the tail
    of the sibling before it, or to the [text] of its parent. *)
Theorem body_passes_only_delete
  (spec : rules) (body : nat) (d d1 d2 d3 d4 : dom) :
  _strip_nodes xpath spec body d = Ok d1 →
  _strip_id_or_class xpath spec body d1 = Ok d2 →
  _strip_image_src xpath spec body d2 = Ok d3 →
  _maybe_prune spec body d3 = Ok d4 →
  (only_drops d d1 ∧ only_drops d1 d2 ∧ only_drops d2 d3 ∧ only_drops d3 d4) ∧
  (frame d d1 ∧ frame d d2 ∧ frame d d3 ∧ frame d d4) ∧
  (∀ n', n' ∈ nodes (document d4) →
     ∃ n, n ∈ nodes (document d) ∧
          node_id n' = node_id n ∧ tag_of n' = tag_of n ∧
          attrib_of n' = attrib_of n ∧ own_text n' = own_text n ∧
          map node_id (children_of n') `sublist_of`
            map node_id (children_of n)).
Proof.
  intros H1 H2 H3 H4.
  apply strip_nodes_loop_only_drops in H1.
  apply strip_id_or_class_loop_only_drops in H2.
  apply strip_image_src_loop_only_drops in H3.
  apply maybe_prune_only_drops in H4.
  assert (frame d d1) as F1 by by apply only_drops_frame.
  assert (frame d d2) as F2
    by (eapply frame_trans; [exact F1|by apply only_drops_frame]).
  assert (frame d d3) as F3
    by (eapply frame_trans; [exact F2|by apply only_drops_frame]).
  assert (frame d d4) as F4
    by (eapply frame_trans; [exact F3|by apply only_drops_frame]).
  split; [done|]. split; [done|].
  intros n' Hn'. destruct F4 as [Hdoc _].
  destruct (Hdoc n' Hn') as (n & Hn & Hsame). by exists n.
Qed.

End Passes.

(** ** The prune test *)







(** *** Trimming and the counts *)


Lemma lstrip_decomp (chars s : string) :
  ∃ pre, s = pre +:+ Str.lstrip chars s ∧
         Str.count (Str.in_chars chars) pre = String.length pre.
Proof.
  induction s as [|c s (pre & Hs & Hpre)]; [by exists ""|].
  simpl. destruct (Str.in_chars chars c) eqn:Hc; [|by exists ""].
  exists (String c pre). simpl. rewrite Hc, Hpre. split; [|done]. by f_equal.
Qed.

Lemma rstrip_decomp (chars s : string) :
  ∃ post, s = Str.rstrip chars s +:+ post ∧
          Str.count (Str.in_chars chars) post = String.length post.
Proof.
  induction s as [|c s (post & Hs & Hpost)]; [by exists ""|].
  cbn [Str.rstrip]. destruct (Str.rstrip chars s) as [|x r] eqn:Hr.
  - simpl in Hs. subst s.
    destruct (Str.in_chars chars c) eqn:Hc.
    + exists (String c post). simpl. by rewrite Hc, Hpost.
    + by exists post.
  - exists post. split; [|done]. simpl. by f_equal.
Qed.

Lemma count_le (p : ascii → bool) (s : string) :
  Str.count p s ≤ String.length s.
Proof. induction s as [|c s IH]; simpl; [done|]. destruct (p c); lia. Qed.

Lemma count_all_mono (p q : ascii → bool) (s : string) :
  (∀ c, p c = true → q c = true) →
  Str.count p s = String.length s → Str.count q s = String.length s.
Proof.
  intros Hpq. induction s as [|c s IH]; simpl; [done|].
  pose proof (count_le p s) as Hle.
  specialize (Hpq c). destruct (p c).
  - rewrite Hpq by done. intros H. rewrite IH; lia.
  - intros H. lia.
Qed.


Lemma strip_decomp (chars s : string) :
  ∃ before after,
    s = before +:+ Str.strip chars s +:+ after ∧
    Str.count (Str.in_chars chars) before = String.length before ∧
    Str.count (Str.in_chars chars) after = String.length after.
Proof.
  destruct (lstrip_decomp chars s) as (before & Hs & Hbefore).
  destruct (rstrip_decomp chars (Str.lstrip chars s)) as (after & Hl & Hafter).
  exists before, after. unfold Str.strip. by rewrite <- Hl.
Qed.

Lemma whitespace_is_space (c : ascii) :
  Str.in_chars Str.whitespace c = Str.is_space c.
Proof. destruct c as [[] [] [] [] [] [] [] []]; by vm_compute. Qed.





Lemma is_space_codes (c : ascii) :
  Str.is_space c = true ↔
  let n := nat_of_ascii c in
  9 ≤ n ≤ 13 ∨ 28 ≤ n ≤ 32 ∨ n = 133 ∨ n = 160.
Proof.
  unfold Str.is_space. generalize (nat_of_ascii c). intros n. cbv zeta.
  rewrite !orb_true_iff, !andb_true_iff, !Nat.leb_le, !Nat.eqb_eq. lia.
Qed.


(** ** [clean_article] on an empty source *)

Lemma find_replace_pairs_empty (pairs : list (string * string)) :
  Forall (λ p, p.1 ≠ "") pairs → find_replace_pairs pairs "" = "".
Proof.
  induction 1 as [|[find replace] pairs Hfind _ IH]; simpl; [done|].
  simpl in Hfind. by destruct find.
Qed.

Section EmptySource.

Variable xpath : dom → nat → string → result (list xitem).
Variable fromstring : string → result (node * nat).
Variable cleaned : node → nat → result string.
Variable tostring : node → string.

(** [lxml.html.fromstring] refuses the empty string: it raises
    [ParserError], with the message [Document is empty]. *)
Hypothesis fromstring_empty : fromstring "" = Raised document_is_empty.

Lemma clean_article_parses_empty (spec : rules) :
  _find_replace spec "" = "" →
  clean_article xpath fromstring cleaned tostring spec ""
  = Raised document_is_empty.
Proof.
  intros Hfind. unfold clean_article, _maybe_clean, clean_html.
  rewrite Hfind.
  destruct (spec_is_not_False spec "lxml_clean"); simpl;
    by rewrite fromstring_empty.
Qed.

(** C6 (amended). When the [find_replace] pairs leave the empty string
    empty, as they do when no configured find string is empty,
    [clean_article] raises the parser's error on an empty source, with
    sanitising switched on or off: nothing is parsed and no result is
    returned. *)
Theorem clean_article_empty_source (spec : rules) :
  (_find_replace spec "" = "" →
   clean_article xpath fromstring cleaned tostring spec ""
   = Raised document_is_empty) ∧
  (Forall (λ p, p.1 ≠ "") (spec_pairs spec "find_replace") →
   clean_article xpath fromstring cleaned tostring spec ""
   = Raised document_is_empty).
Proof.
  split; [apply clean_article_parses_empty|].
  intros Hpairs. apply clean_article_parses_empty.
  by apply find_replace_pairs_empty.
Qed.

End EmptySource.

(** ** The sample page *)

Example strip_id_or_class_page :
  _strip_id_or_class no_xpath page_rules 2 (Dom page []) = Ok page_stripped.
Proof. reflexivity. Qed.

Example maybe_prune_page :
  _maybe_prune page_rules 2 page_stripped = Ok page_pruned.
Proof. reflexivity. Qed.

Example prune_disabled :
  _maybe_prune {[ "prune" := Flag false ]} 2 page_stripped = Ok page_stripped.
Proof. reflexivity. Qed.

(** [drop_tree] keeps the text around the dropped element: the tail of a
    first child joins the [text] of its parent. *)
Example drop_first_child_joins_text :
  drop_tree 1 (Dom (el 0 "div" [] "Hello" [el 1 "span" [] "x" [] " world"] "") [])
  = Ok (Dom (el 0 "div" [] "Hello world" [] "")
            [el 1 "span" [] "x" [] " world"]).
Proof. reflexivity. Qed.

Lemma page_wf : wf_dom (Dom page []).
Proof.
  split.
  - apply (bool_decide_unpack _). by vm_compute.
  - by intros r ?%elem_of_nil.
Defined.

Lemma page_with_root_class_wf : wf_dom (Dom page_with_root_class []).
Proof.
  split.
  - apply (bool_decide_unpack _). by vm_compute.
  - by intros r ?%elem_of_nil.
Defined.

Lemma strip_id_or_class_matching_root_raises_witness :
  _strip_id_or_class no_xpath {[ "strip_id_or_class" := Values ["class1"] ]}
    0 (Dom page_with_root_class [])
  = Raised (MkExn AssertionError "").
Proof.
  apply (strip_id_or_class_matching_root_raises no_xpath
           {[ "strip_id_or_class" := Values ["class1"] ]} 0
           (Dom page_with_root_class []) [] "class1" []
           page_with_root_class_wf).
  - reflexivity.
  - constructor.
  - reflexivity.
  - reflexivity.
  - left. by exists "not", "".
Defined.

(** The same values delete the paragraph when it is the paragraph that
    carries the class: the failure is the root's. *)
Example strip_id_or_class_below_root :
  _strip_id_or_class no_xpath {[ "strip_id_or_class" := Values ["class1"] ]} 0
    (Dom (el 0 "html" [] "" [
            el 1 "body" [] "" [
              el 2 "p" [("class", "notclass1")] "Hello" [] "" ] "" ] "") [])
  = Ok (Dom (el 0 "html" [] "" [ el 1 "body" [] "" [] "" ] "")
            [el 2 "p" [("class", "notclass1")] "Hello" [] ""]).
Proof. reflexivity. Qed.

(** C10, as stated, fails: an element that is not deleted does not always
    keep its [text]. Stripping the advert, the first child of the body
    element, leaves the body element in place with the tail of the advert
    joined to its [text]; stripping the advert of the sample page joins its
    tail to the [tail] of the paragraph before it. *)
Lemma body_passes_rewrite_text :
  _strip_id_or_class no_xpath page_rules 1 (Dom lead []) = Ok lead_stripped ∧
  find_node 1 (Dom lead []) =
    Some (el 1 "body" [] "Intro"
            [ el 2 "div" [("class", "notclass1")] "Ad" [] " after";
              el 3 "p" [] "Hello" [] "" ] "") ∧
  find_node 1 lead_stripped =
    Some (el 1 "body" [] "Intro after" [ el 3 "p" [] "Hello" [] "" ] "") ∧
  _strip_id_or_class no_xpath page_rules 2 (Dom page []) = Ok page_stripped ∧
  find_node 3 (Dom page []) = Some (el 3 "p" [] "Hello, world." [] "") ∧
  find_node 3 page_stripped = Some (el 3 "p" [] "Hello, world." [] " after").
Proof. repeat split; reflexivity. Qed.

Lemma body_passes_only_delete_witness :
  frame (Dom page []) page_pruned.
Proof.
  apply (body_passes_only_delete no_xpath page_rules 2
           (Dom page []) (Dom page []) page_stripped page_stripped page_pruned
           eq_refl eq_refl eq_refl eq_refl).
Defined.


Example prune_keeps_at_threshold :
  prune_element special_limit_default at_threshold page_stripped
  = Ok page_stripped.
Proof. reflexivity. Qed.

Example prune_keeps_periods :
  prune_element special_limit_default (el 8 "b" [] "..." [] "") page_stripped
  = Ok page_stripped.
Proof. reflexivity. Qed.

Example prune_keeps_parent_of_kept_child :
  prune_element special_limit_default
    (el 7 "span" [] "#" [ el 8 "b" [] "..." [] "" ] "") page_stripped
  = Ok page_stripped.
Proof. reflexivity. Qed.

Example prune_keeps_line_break :
  prune_element special_limit_default (el 6 "br" [] "" [] "") page_stripped
  = Ok page_stripped.
Proof. reflexivity. Qed.

(** Accented letters are word characters, no-break spaces are whitespace,
    and the multiplication sign is neither. *)
Example should_drop_beyond_ascii :
  prune_counts accented = (3, 0, 0)%Z ∧
  should_drop accented special_limit_default = false ∧
  prune_counts padded = (1, 0, 0)%Z ∧
  should_drop padded special_limit_default = false ∧
  prune_counts signs = (1, 0, 2)%Z ∧
  should_drop signs special_limit_default = true.
Proof. repeat split; reflexivity. Qed.

(** A text that is plain ASCII is a byte string, and [strip] leaves a
    separator character at its end; the character is whitespace for the
    pattern all the same, so that the two counts that decide do not see
    it. *)
Example text_strip_byte_string :
  text_strip (Str.of_codes [97; 28]) = Str.of_codes [97; 28] ∧
  text_strip (Str.of_codes [233; 28]) = Str.of_codes [233] ∧
  prune_counts (el 14 "p" [] (Str.of_codes [97; 28]) [] "") = (1, 1, 0)%Z.
Proof. repeat split; reflexivity. Qed.

(** ** The empty source *)

(** C6, as stated, fails: on an empty source [clean_article] returns no
    result; it raises the parser's error. *)
Lemma clean_article_empty_source_raises :
  fromstring_stub "" = Raised document_is_empty ∧
  clean_article no_xpath fromstring_stub cleaned_stub tostring_stub
    example_com_rules ""
  = Raised document_is_empty ∧
  clean_article no_xpath fromstring_stub cleaned_stub tostring_stub
    {[ "lxml_clean" := Flag false ]} ""
  = Raised document_is_empty.
Proof. repeat split; reflexivity. Qed.

Lemma clean_article_empty_source_witness :
  clean_article no_xpath fromstring_stub cleaned_stub tostring_stub
    example_com_rules ""
  = Raised document_is_empty.
Proof.
  apply (proj1 (clean_article_empty_source no_xpath fromstring_stub
                  cleaned_stub tostring_stub eq_refl example_com_rules)
           eq_refl).
Defined.

(** With an empty find string the source does not stay empty. *)
Example find_replace_fills_empty_source :
  _find_replace {[ "find_replace" := Pairs [("", "<p>x</p>")] ]} "" = "<p>x</p>".
Proof. reflexivity. Qed.

(** ** Running and reading test cases *)

Lemma contains_false (s sub : string) :
  Str.contains s sub = false ↔ ¬ substring_of sub s.
Proof. rewrite <- contains_spec. by destruct (Str.contains s sub). Qed.

(** X1. When the extraction succeeds with a string as plaintext, [run] reports
    [OK] with the expected fragments that do not occur in the plaintext, in
    the order they were added, and writes nothing to [sys.stderr]. *)
Theorem run_lists_absent_fragments
  (clean_content : string → result (gmap string pyval))
  (self : TestCase) (d : gmap string pyval) (t : string) :
  clean_content (url self) = Ok d →
  d !! "plaintext" = Some (PStr t) →
  ∃ missing,
    run clean_content self =
      ("", Ok {[ "url" := PStr (url self);
                 "status" := PStr "OK";
                 "missing_fragments" := PList missing ]}) ∧
    missing `sublist_of` fragments self ∧
    ∀ s, s ∈ missing ↔ s ∈ fragments self ∧ ¬ substring_of s t.
Proof.
  intros Hd Ht.
  exists (filter (λ s, Str.contains t s = false) (fragments self)).
  split; [by apply run_ok with d|]. split; [apply sublist_filter|].
  intros s. rewrite list_elem_of_filter, contains_false. tauto.
Qed.

(** X2. An extraction that raises an exception deriving from [Exception], or
    that returns a dict without the key [plaintext], makes [run] return a
    report of status [EXCEPTION]; an exception that does not derive from
    [Exception] leaves [run] as it is. *)
Theorem run_catches_exceptions
  (clean_content : string → result (gmap string pyval)) (self : TestCase) :
  let report : gmap string pyval :=
    {[ "url" := PStr (url self);
       "status" := PStr "EXCEPTION";
       "message" := PStr "e.message" ]} in
  (∀ e, clean_content (url self) = Raised e → is_Exception e = true →
        (run clean_content self).2 = Ok report) ∧
  (∀ e, clean_content (url self) = Raised e → is_Exception e = false →
        run clean_content self = ("", Raised e)) ∧
  (∀ d, clean_content (url self) = Ok d → d !! "plaintext" = None →
        (run clean_content self).2 = Ok report).
Proof.
  intros report. unfold run, subscript. repeat split.
  - intros e -> He. simpl. by rewrite He.
  - intros e -> He. simpl. by rewrite He.
  - intros d -> Hd. simpl. by rewrite Hd.
Qed.

Lemma partition_label (label content : string) :
  Str.has_char ":" label = false →
  Str.partition (label +:+ String ":" content) ":"
  = (label, String ":" "", content).
Proof.
  intros Hno. unfold Str.partition.
  assert (Str.has_char ":" (label +:+ String ":" content) = true ∧
          Str.partition_before ":" (label +:+ String ":" content) = label ∧
          Str.partition_after ":" (label +:+ String ":" content) = content)
    as (-> & -> & ->); [|done].
  induction label as [|c label IH]; simpl in *; [done|].
  apply orb_false_iff in Hno as [Hc Hno].
  rewrite (Ascii.eqb_sym c ":"), Hc in *. simpl.
  destruct (IH Hno) as (-> & -> & ->). done.
Qed.

Lemma lstrip_head (chars s : string) (c : ascii) (rest : string) :
  Str.lstrip chars s = String c rest → Str.in_chars chars c = false.
Proof.
  induction s as [|x s IH]; simpl; [done|].
  destruct (Str.in_chars chars x) eqn:Hx; [done|]. by intros [= <- _].
Qed.

Lemma strip_head (chars s : string) (c : ascii) (rest : string) :
  Str.strip chars s = String c rest → Str.in_chars chars c = false.
Proof.
  unfold Str.strip.
  destruct (Str.lstrip chars s) as [|a l] eqn:Hl; [done|].
  apply lstrip_head in Hl. cbn [Str.rstrip].
  destruct (Str.rstrip chars l); [rewrite Hl|]; by intros [= <- _].
Qed.

Lemma rstrip_last (chars s : string) :
  ∀ pre c, Str.rstrip chars s = pre +:+ String c "" →
           Str.in_chars chars c = false.
Proof.
  induction s as [|x s IH]; intros pre c.
  { by destruct pre. }
  cbn [Str.rstrip]. destruct (Str.rstrip chars s) as [|y r] eqn:Hr.
  - destruct (Str.in_chars chars x) eqn:Hx; [by destruct pre|].
    destruct pre as [|p pre]; [by intros [= <-]|].
    intros [= _ H]. by destruct pre.
  - destruct pre as [|p pre]; [done|].
    intros [= _ H]. by apply (IH pre c).
Qed.

(** X3. [parse_specline] splits a line at its first colon only, and strips
    the content; a line without a colon is all label. Stripping takes
    whitespace, as Unicode defines it, off the two ends of the content until
    a character that is none stands at each end. *)
Theorem parse_specline_splits :
  (∀ label content, Str.has_char ":" label = false →
     parse_specline (label +:+ String ":" content)
     = (label, Str.strip Str.whitespace content)) ∧
  (∀ line, Str.has_char ":" line = false → parse_specline line = (line, "")) ∧
  (∀ content, ∃ before after,
     content = before +:+ Str.strip Str.whitespace content +:+ after ∧
     Str.count Str.is_space before = String.length before ∧
     Str.count Str.is_space after = String.length after) ∧
  (∀ content c rest,
     Str.strip Str.whitespace content = String c rest →
     Str.is_space c = false) ∧
  (∀ content pre c,
     Str.strip Str.whitespace content = pre +:+ String c "" →
     Str.is_space c = false) ∧
  (∀ c, Str.is_space c = true ↔
        let n := nat_of_ascii c in
        9 ≤ n ≤ 13 ∨ 28 ≤ n ≤ 32 ∨ n = 133 ∨ n = 160).
Proof.
  split; [|split; [|split; [|split; [|split; [|apply is_space_codes]]]]].
  - intros label content Hno. unfold parse_specline.
    by rewrite partition_label.
  - intros line Hno. unfold parse_specline, Str.partition. by rewrite Hno.
  - intros content.
    destruct (strip_decomp Str.whitespace content) as (b & a & Hc & Hb & Ha).
    exists b, a. split; [done|].
    split; eapply count_all_mono; try eassumption;
      intros c; by rewrite whitespace_is_space.
  - intros content c rest Hs. rewrite <- whitespace_is_space.
    by eapply strip_head.
  - intros content pre c Hs. rewrite <- whitespace_is_space.
    by eapply rstrip_last.
Qed.

(* The parsed line stays folded while the loop is unfolded. *)
#[local] Arguments parse_specline : simpl never.

Lemma add_to_last_urls (cases : list TestCase) (fragment : string) :
  map url (add_to_last cases fragment) = map url cases.
Proof.
  induction cases as [|c [|c' cases] IH]; [done..|].
  change (url c :: map url (add_to_last (c' :: cases) fragment)
          = url c :: map url (c' :: cases)).
  by rewrite IH.
Qed.

Lemma add_to_last_fragments (cases : list TestCase) (fragment : string) :
  cases ≠ [] →
  concat (map fragments (add_to_last cases fragment))
  = concat (map fragments cases) ++ [fragment].
Proof.
  induction cases as [|c [|c' cases] IH]; intros Hne; [done| |].
  - simpl. by rewrite !app_nil_r.
  - change (fragments c ++ concat (map fragments (add_to_last (c' :: cases) fragment))
            = (fragments c ++ concat (map fragments (c' :: cases))) ++ [fragment]).
    rewrite IH by done. by rewrite app_assoc.
Qed.

Lemma add_to_last_length (cases : list TestCase) (fragment : string) :
  length (add_to_last cases fragment) = length cases.
Proof.
  induction cases as [|c [|c' cases] IH]; [done..|].
  change (S (length (add_to_last (c' :: cases) fragment))
          = S (length (c' :: cases))).
  by rewrite IH.
Qed.

Lemma contents_of_cons (label line : string) (lines : list string) :
  contents_of label (line :: lines) =
    if String.eqb (parse_specline line).1 label
    then (parse_specline line).2 :: contents_of label lines
    else contents_of label lines.
Proof.
  unfold contents_of.
  change (map parse_specline (line :: lines))
    with (parse_specline line :: map parse_specline lines).
  rewrite filter_cons.
  destruct (String.eqb_spec (parse_specline line).1 label) as [Heq|Hne];
    by case_decide.
Qed.

Section LoadFacts.

Variable open_lines : string → result (list string).
Variable decode : string → result string.

(** The loop on lines that are already decoded. *)
Local Abbreviation load_decoded := (load_lines (λ line, Ok line)).

Lemma load_decoded_cons (fpath line : string) (ls : list string)
  (cases : list TestCase) :
  load_decoded fpath (line :: ls) cases =
    if String.eqb (parse_specline line).1 "test_url" then
      load_decoded fpath ls (cases ++ [MkTestCase (parse_specline line).2 []])
    else if String.eqb (parse_specline line).1 "test_contains" then
      if (length cases =? 0)%nat then Raised (invalid_spec_file fpath)
      else load_decoded fpath ls (add_to_last cases (parse_specline line).2)
    else load_decoded fpath ls cases.
Proof. reflexivity. Qed.

Lemma load_lines_decoded (fpath : string) (lines : list string) :
  ∀ ls cases, decode_all decode lines = Ok ls →
    load_lines decode fpath lines cases = load_decoded fpath ls cases.
Proof.
  induction lines as [|line_str lines IH]; intros ls cases; simpl.
  - by intros [= <-].
  - intros (line & Hline & (more & Hmore & [= <-])%bind_Ok)%bind_Ok.
    rewrite Hline, load_decoded_cons. simpl.
    destruct (parse_specline line) as [label content]. simpl.
    rewrite !(IH more) by done. done.
Qed.

Lemma load_decoded_filter (fpath : string) (ls : list string) :
  ∀ cases, load_decoded fpath ls cases
           = load_decoded fpath (filter is_test_line ls) cases.
Proof.
  induction ls as [|line ls IH]; intros cases; [done|].
  rewrite filter_cons. unfold is_test_line at 1.
  destruct (String.eqb_spec (parse_specline line).1 "test_url") as [Hurl|Hurl].
  { rewrite decide_True by by left. rewrite !load_decoded_cons.
    rewrite Hurl. simpl. apply IH. }
  destruct (String.eqb_spec (parse_specline line).1 "test_contains")
    as [Hcontains|Hcontains].
  { rewrite decide_True by by right. rewrite !load_decoded_cons.
    rewrite Hcontains. simpl.
    destruct (length cases =? 0)%nat; [done|apply IH]. }
  rewrite decide_False by (intros [?|?]; done).
  rewrite load_decoded_cons.
  apply String.eqb_neq in Hurl, Hcontains. rewrite Hurl, Hcontains. apply IH.
Qed.

(** With a case to attach fragments to, the loop succeeds. *)
Lemma load_decoded_started (fpath : string) (ls : list string) :
  ∀ cases, cases ≠ [] →
    ∃ cases', load_decoded fpath ls cases = Ok cases' ∧
      map url cases' = map url cases ++ contents_of "test_url" ls ∧
      concat (map fragments cases')
      = concat (map fragments cases) ++ contents_of "test_contains" ls.
Proof.
  induction ls as [|line ls IH]; intros cases Hne.
  { exists cases. by rewrite !app_nil_r. }
  rewrite load_decoded_cons, !contents_of_cons.
  destruct (parse_specline line) as [label content] eqn:Hparse. simpl.
  destruct (String.eqb_spec label "test_url") as [->|Hurl].
  { destruct (IH (cases ++ [MkTestCase content []])) as (cases' & -> & Hu & Hf).
    { by destruct cases. }
    exists cases'. split; [done|]. simpl. split.
    - rewrite Hu, map_app. simpl. by rewrite <- app_assoc.
    - rewrite Hf, map_app, concat_app. simpl. by rewrite app_nil_r. }
  destruct (String.eqb_spec label "test_contains") as [->|Hcontains].
  { destruct cases as [|c cases]; [done|]. simpl length. simpl Nat.eqb. cbv iota.
    destruct (IH (add_to_last (c :: cases) content)) as (cases' & -> & Hu & Hf).
    { intros Hnil. apply (f_equal length) in Hnil.
      by rewrite add_to_last_length in Hnil. }
    exists cases'. split; [done|]. split.
    - by rewrite Hu, add_to_last_urls.
    - rewrite Hf, add_to_last_fragments by done. by rewrite <- app_assoc. }
  by apply IH.
Qed.

(** X4. What [load_testcases] returns, by the first line it acts on: nothing to
    load gives no case; a [test_contains] line that comes before any
    [test_url] line is refused; otherwise the file loads. *)
Theorem load_testcases_outcome (fpath : string) (lines ls : list string) :
  open_lines fpath = Ok lines →
  decode_all decode lines = Ok ls →
  match head (filter is_test_line ls) with
  | None => load_testcases open_lines decode fpath = Ok []
  | Some line =>
      if String.eqb (parse_specline line).1 "test_contains"
      then load_testcases open_lines decode fpath
           = Raised (invalid_spec_file fpath)
      else ∃ cases, load_testcases open_lines decode fpath = Ok cases
  end.
Proof.
  intros Hopen Hdecode. unfold load_testcases. rewrite Hopen. cbn [bind].
  rewrite (load_lines_decoded _ _ ls) by done.
  rewrite load_decoded_filter.
  destruct (filter is_test_line ls) as [|line rest] eqn:Hfilter; [done|].
  assert (is_test_line line) as Htest.
  { assert (line ∈ filter is_test_line ls) as Hin by (rewrite Hfilter; by left).
    by apply list_elem_of_filter in Hin as [? _]. }
  rewrite load_decoded_cons. cbn [head].
  destruct Htest as [Hlabel|Hlabel]; rewrite Hlabel; cbn; [|done].
  destruct (load_decoded_started fpath rest
              [MkTestCase (parse_specline line).2 []])
    as (cases & -> & _); [done|]. by exists cases.
Qed.

(** X5. Only the [test_url] and [test_contains] lines matter. *)
Theorem load_testcases_ignores_other_lines
  (fpath : string) (lines ls : list string) :
  open_lines fpath = Ok lines →
  decode_all decode lines = Ok ls →
  load_testcases open_lines decode fpath
  = load_decoded fpath (filter is_test_line ls) [].
Proof.
  intros Hopen Hdecode. unfold load_testcases. rewrite Hopen. simpl.
  rewrite (load_lines_decoded _ _ ls) by done.
  apply load_decoded_filter.
Qed.

(** X6. The cases of a file that loads: one per [test_url] line, with the urls
    of these lines in order, and holding between them the contents of the
    [test_contains] lines in order. *)
Theorem load_testcases_cases
  (fpath : string) (lines ls : list string) (cases : list TestCase) :
  open_lines fpath = Ok lines →
  decode_all decode lines = Ok ls →
  load_testcases open_lines decode fpath = Ok cases →
  map url cases = contents_of "test_url" ls ∧
  concat (map fragments cases) = contents_of "test_contains" ls.
Proof.
  intros Hopen Hdecode. unfold load_testcases. rewrite Hopen. simpl.
  rewrite (load_lines_decoded _ _ ls) by done.
  clear Hopen Hdecode lines.
  induction ls as [|line ls IH]; [by intros [= <-]|].
  rewrite load_decoded_cons, !contents_of_cons.
  destruct (parse_specline line) as [label content] eqn:Hparse. simpl.
  destruct (String.eqb_spec label "test_url") as [->|Hurl].
  { destruct (load_decoded_started fpath ls [MkTestCase content []])
      as (cases' & -> & Hu & Hf); [done|].
    intros [= <-]. by rewrite Hu, Hf. }
  destruct (String.eqb_spec label "test_contains") as [->|Hcontains]; [done|].
  apply IH.
Qed.

End LoadFacts.

Example load_sample_lines :
  load_testcases sample_open_lines decode_ascii "sitespecs/example.com.txt"
  = Ok [ MkTestCase "http://example.com/a" ["Hello"; "World"];
         MkTestCase "http://example.com/b" [] ].
Proof. reflexivity. Qed.

Lemma run_lists_absent_fragments_witness :
  ∃ missing,
    run (λ _, Ok {[ "plaintext" := PStr "Hello there" ]})
        (MkTestCase "http://example.com/a" ["Hello"; "World"]) =
      ("", Ok {[ "url" := PStr "http://example.com/a";
                 "status" := PStr "OK";
                 "missing_fragments" := PList missing ]}) ∧
    missing `sublist_of` ["Hello"; "World"] ∧
    ∀ s, s ∈ missing ↔ s ∈ ["Hello"; "World"] ∧ ¬ substring_of s "Hello there".
Proof.
  exact (run_lists_absent_fragments
           (λ _, Ok {[ "plaintext" := PStr "Hello there" ]})
           (MkTestCase "http://example.com/a" ["Hello"; "World"])
           {[ "plaintext" := PStr "Hello there" ]} "Hello there"
           eq_refl eq_refl).
Defined.

Lemma load_testcases_outcome_witness :
  ∃ cases,
    load_testcases sample_open_lines decode_ascii "sitespecs/example.com.txt"
    = Ok cases.
Proof.
  exact (load_testcases_outcome sample_open_lines decode_ascii
           "sitespecs/example.com.txt" sample_lines sample_lines
           eq_refl eq_refl).
Defined.

Lemma load_testcases_ignores_other_lines_witness :
  load_testcases sample_open_lines decode_ascii "sitespecs/example.com.txt"
  = load_lines decode_ascii "sitespecs/example.com.txt"
      (filter is_test_line sample_lines) [].
Proof.
  exact (load_testcases_ignores_other_lines sample_open_lines decode_ascii
           "sitespecs/example.com.txt" sample_lines sample_lines
           eq_refl eq_refl).
Defined.

Lemma load_testcases_cases_witness :
  map url [ MkTestCase "http://example.com/a" ["Hello"; "World"];
            MkTestCase "http://example.com/b" [] ]
  = contents_of "test_url" sample_lines ∧
  concat (map fragments
            [ MkTestCase "http://example.com/a" ["Hello"; "World"];
              MkTestCase "http://example.com/b" [] ])
  = contents_of "test_contains" sample_lines.
Proof.
  exact (load_testcases_cases sample_open_lines decode_ascii
           "sitespecs/example.com.txt" sample_lines sample_lines _
           eq_refl eq_refl eq_refl).
Defined.

(** ** The merge, again *)

(** X9. Merging the same override twice changes nothing more; a field of the
    baseline never disappears; and a field of the result comes from the
    baseline or is a truthy field of the override. *)
Theorem merge_fields_idempotent (fields override : gmap string pyval) :
  merge_fields (merge_fields fields override) override
  = merge_fields fields override ∧
  (∀ k, is_Some (fields !! k) →
        is_Some (merge_fields fields override !! k)) ∧
  (∀ k v, merge_fields fields override !! k = Some v →
          fields !! k = Some v ∨ (override !! k = Some v ∧ truthy v = true)).
Proof.
  split; [|split].
  - apply map_eq. intros k. rewrite !merge_fields_lookup.
    destruct (override !! k) as [v|]; [|done]. by destruct (truthy v).
  - intros k Hk. rewrite merge_fields_lookup.
    destruct (override !! k) as [v|]; [|done]. by destruct (truthy v).
  - intros k v. rewrite merge_fields_lookup.
    destruct (override !! k) as [w|] eqn:Hw; [|by left].
    destruct (truthy w) eqn:Ht; [|by left].
    intros [= <-]. by right.
Qed.

(** ** [scraper_cascade] *)

Lemma replace_char_scan (a b : ascii) (s : string) :
  a ≠ b →
  String.length (Str.replace s (String a "") (String b "")) = String.length s ∧
  Str.has_char a (Str.replace s (String a "") (String b "")) = false.
Proof.
  intros Hab. unfold Str.replace.
  induction s as [|c s [IHlen IHchar]]; [done|].
  cbn [Str.replace_scan Str.startswith String.length Nat.sub].
  destruct (Ascii.eqb_spec a c) as [<-|Hac]; simpl.
  - rewrite IHlen, IHchar. split; [done|].
    apply orb_false_iff. split; [|done]. by apply Ascii.eqb_neq.
  - rewrite IHlen, IHchar. split; [done|].
    apply orb_false_iff. split; [|done]. apply Ascii.eqb_neq. congruence.
Qed.

Section CascadeFacts.

Context {file : Type}.
Variable io_open : string → result file.
Variable load_rules : file → result rules.
Variable xpath : dom → nat → string → result (list xitem).
Variable fromstring : string → result (node * nat).
Variable cleaned : node → nat → result string.
Variable tostring : node → string.
Variable hostname_of : string → option string.
Variable clean_source : string → string → result (option (gmap string pyval)).
Variable handle : pyval → result string.
Variable markdown2 : string → string.

Local Abbreviation resolve := (resolve io_open load_rules).
Local Abbreviation clean_article :=
  (clean_article xpath fromstring cleaned tostring).
Local Abbreviation cascade_fields :=
  (cascade_fields xpath fromstring cleaned tostring).
Local Abbreviation render := (render handle markdown2).
Local Abbreviation scraper_cascade :=
  (scraper_cascade io_open load_rules xpath fromstring cleaned tostring
     hostname_of clean_source handle markdown2).

Lemma render_Ok (fields r : gmap string pyval) :
  render fields = Ok r →
  ∃ html markdown,
    fields !! "html" = Some html ∧ handle html = Ok markdown ∧
    r = <["plaintext" := PStr (Str.replace markdown newline " ")]>
          (<["markdown_html" := PStr (markdown2 markdown)]>
             (<["markdown" := PStr markdown]> fields)).
Proof.
  unfold render, subscript.
  destruct (fields !! "html") as [html|]; [|done]. simpl.
  destruct (handle html) as [markdown|] eqn:Hh; [|done]. simpl.
  intros [= <-]. by exists html, markdown.
Qed.

Lemma scraper_cascade_Ok (url content : string) (r : gmap string pyval) :
  scraper_cascade url content = Ok r →
  ∃ spec extracted fields,
    resolve (hostname_of url) = Ok spec ∧
    clean_source url content = Ok extracted ∧
    cascade_fields extracted spec content = Ok fields ∧
    render fields = Ok r.
Proof.
  unfold scraper_cascade.
  intros (spec & Hspec & (extracted & Hext & (fields & Hf & Hr)%bind_Ok)%bind_Ok)%bind_Ok.
  by exists spec, extracted, fields.
Qed.

(** X10. The renditions that [scraper_cascade] returns are made from the [html]
    field as it is after the merge, whatever the baseline held under their
    keys; every other field is the merged one. *)
Theorem scraper_cascade_renders_merged_html
  (url content : string) (r : gmap string pyval) :
  scraper_cascade url content = Ok r →
  ∃ spec extracted fields html markdown,
    resolve (hostname_of url) = Ok spec ∧
    clean_source url content = Ok extracted ∧
    cascade_fields extracted spec content = Ok fields ∧
    fields !! "html" = Some html ∧ handle html = Ok markdown ∧
    r !! "markdown" = Some (PStr markdown) ∧
    r !! "markdown_html" = Some (PStr (markdown2 markdown)) ∧
    r !! "plaintext" = Some (PStr (Str.replace markdown newline " ")) ∧
    ∀ k, k ≠ "markdown" → k ≠ "markdown_html" → k ≠ "plaintext" →
         r !! k = fields !! k.
Proof.
  intros (spec & extracted & fields & Hs & He & Hf & Hr)%scraper_cascade_Ok.
  apply render_Ok in Hr as (html & markdown & Hhtml & Hmd & ->).
  exists spec, extracted, fields, html, markdown.
  repeat (split; [done|]).
  split; [by simplify_map_eq|]. split; [by simplify_map_eq|].
  split; [by simplify_map_eq|].
  intros k ? ? ?. by simplify_map_eq.
Qed.

(** X11. The plaintext has as many characters as the markdown and no newline. *)
Theorem scraper_cascade_plaintext_one_line
  (url content : string) (r : gmap string pyval) :
  scraper_cascade url content = Ok r →
  ∃ markdown plaintext,
    r !! "markdown" = Some (PStr markdown) ∧
    r !! "plaintext" = Some (PStr plaintext) ∧
    String.length plaintext = String.length markdown ∧
    Str.has_char (ascii_of_nat 10) plaintext = false.
Proof.
  intros (spec & extracted & fields & Hs & He & Hf & Hr)%scraper_cascade_Ok.
  apply render_Ok in Hr as (html & markdown & Hhtml & Hmd & ->).
  exists markdown, (Str.replace markdown newline " ").
  split; [by simplify_map_eq|]. split; [by simplify_map_eq|].
  by apply replace_char_scan.
Qed.

(** X12. What goes wrong before the renditions is not caught: a url without a
    hostname is a type error, an exception of the resolver or of the generic
    extractor comes out as it is, and so does an exception of the scraper
    when a rule set applies. *)
Theorem scraper_cascade_propagates (url content : string) :
  (hostname_of url = None →
   ∃ e, scraper_cascade url content = Raised e ∧ exn_type e = TypeError) ∧
  (∀ e, resolve (hostname_of url) = Raised e →
        scraper_cascade url content = Raised e) ∧
  (∀ spec e, resolve (hostname_of url) = Ok spec →
        clean_source url content = Raised e →
        scraper_cascade url content = Raised e) ∧
  (∀ spec extracted e, resolve (hostname_of url) = Ok (Some spec) →
        clean_source url content = Ok extracted →
        clean_article spec content = Raised e →
        scraper_cascade url content = Raised e).
Proof.
  unfold scraper_cascade. repeat split.
  - intros ->. by eexists.
  - by intros e ->.
  - intros spec e -> ->. done.
  - intros spec extracted e -> -> He. simpl.
    unfold cascade_fields. by rewrite He.
Qed.

(** X13. Without a rule set for the hostname and without a result of the generic
    extractor, the page itself is the [html] field, and the renditions are
    made from it. *)
Theorem scraper_cascade_raw_page (url content markdown : string)
  (extracted : option (gmap string pyval)) :
  resolve (hostname_of url) = Ok None →
  clean_source url content = Ok extracted →
  (extracted = None ∨ extracted = Some ∅) →
  handle (PStr content) = Ok markdown →
  scraper_cascade url content =
    Ok {[ "html" := PStr content;
          "markdown" := PStr markdown;
          "markdown_html" := PStr (markdown2 markdown);
          "plaintext" := PStr (Str.replace markdown newline " ") ]}.
Proof.
  intros Hs He Hext Hmd. unfold scraper_cascade.
  rewrite Hs, He. simpl. unfold render.
  assert (baseline extracted content = {[ "html" := PStr content ]}) as ->.
  { by destruct Hext as [-> | ->]. }
  unfold subscript. rewrite lookup_singleton_eq. simpl. rewrite Hmd. simpl.
  reflexivity.
Qed.

End CascadeFacts.

Lemma scraper_cascade_renders_merged_html_witness :
  ∃ spec extracted fields html markdown,
    resolve sample_open sample_load_rules
      (hostname_stub "http://nowhere.test/x") = Ok spec ∧
    Ok None = Ok extracted ∧
    cascade_fields no_xpath fromstring_stub cleaned_stub tostring_stub
      extracted spec two_lines = Ok fields ∧
    fields !! "html" = Some html ∧ handle_stub html = Ok markdown ∧
    ({[ "html" := PStr two_lines; "markdown" := PStr two_lines;
        "markdown_html" := PStr two_lines; "plaintext" := PStr "a b" ]}
       : gmap string pyval) !! "markdown" = Some (PStr markdown) ∧
    ({[ "html" := PStr two_lines; "markdown" := PStr two_lines;
        "markdown_html" := PStr two_lines; "plaintext" := PStr "a b" ]}
       : gmap string pyval) !! "markdown_html" = Some (PStr (id markdown)) ∧
    ({[ "html" := PStr two_lines; "markdown" := PStr two_lines;
        "markdown_html" := PStr two_lines; "plaintext" := PStr "a b" ]}
       : gmap string pyval) !! "plaintext"
      = Some (PStr (Str.replace markdown newline " ")) ∧
    ∀ k, k ≠ "markdown" → k ≠ "markdown_html" → k ≠ "plaintext" →
         ({[ "html" := PStr two_lines; "markdown" := PStr two_lines;
             "markdown_html" := PStr two_lines; "plaintext" := PStr "a b" ]}
            : gmap string pyval) !! k = fields !! k.
Proof.
  exact (scraper_cascade_renders_merged_html
           sample_open sample_load_rules no_xpath fromstring_stub cleaned_stub
           tostring_stub hostname_stub (λ _ _, Ok None) handle_stub id
           "http://nowhere.test/x" two_lines _ eq_refl).
Defined.

Lemma scraper_cascade_plaintext_one_line_witness :
  ∃ markdown plaintext,
    ({[ "html" := PStr two_lines; "markdown" := PStr two_lines;
        "markdown_html" := PStr two_lines; "plaintext" := PStr "a b" ]}
       : gmap string pyval) !! "markdown" = Some (PStr markdown) ∧
    ({[ "html" := PStr two_lines; "markdown" := PStr two_lines;
        "markdown_html" := PStr two_lines; "plaintext" := PStr "a b" ]}
       : gmap string pyval) !! "plaintext" = Some (PStr plaintext) ∧
    String.length plaintext = String.length markdown ∧
    Str.has_char (ascii_of_nat 10) plaintext = false.
Proof.
  exact (scraper_cascade_plaintext_one_line
           sample_open sample_load_rules no_xpath fromstring_stub cleaned_stub
           tostring_stub hostname_stub (λ _ _, Ok None) handle_stub id
           "http://nowhere.test/x" two_lines _ eq_refl).
Defined.

Lemma scraper_cascade_raw_page_witness :
  scraper_cascade sample_open sample_load_rules no_xpath fromstring_stub
    cleaned_stub tostring_stub hostname_stub (λ _ _, Ok (Some ∅)) handle_stub id
    "http://nowhere.test/x" two_lines
  = Ok {[ "html" := PStr two_lines; "markdown" := PStr two_lines;
          "markdown_html" := PStr two_lines; "plaintext" := PStr "a b" ]}.
Proof.
  exact (scraper_cascade_raw_page
           sample_open sample_load_rules no_xpath fromstring_stub cleaned_stub
           tostring_stub hostname_stub (λ _ _, Ok (Some ∅)) handle_stub id
           "http://nowhere.test/x" two_lines two_lines (Some ∅)
           eq_refl eq_refl (or_intror eq_refl) eq_refl).
Defined.

(** ** [_find_replace], again *)

Lemma replace_absent (s old new : string) :
  Str.contains s old = false → Str.replace s old new = s.
Proof.
  destruct old as [|a old]; [by destruct s|].
  unfold Str.replace. induction s as [|c s IH]; [done|].
  intros Hno.
  change (Str.contains (String c s) (String a old))
    with (Str.startswith (String a old) (String c s)
          || Str.contains s (String a old)) in Hno.
  apply orb_false_iff in Hno as [Hstart Hrest].
  cbn [Str.replace_scan]. rewrite Hstart. by rewrite IH.
Qed.

Lemma find_replace_pairs_absent (pairs : list (string * string))
  (source : string) :
  Forall (λ p, Str.contains source p.1 = false) pairs →
  find_replace_pairs pairs source = source.
Proof.
  induction pairs as [|[find replace] pairs IH]; [done|].
  intros [Hfind Hpairs]%Forall_cons. simpl in *.
  rewrite replace_absent by done. by apply IH.
Qed.

(** X14. A source in which no configured find string occurs comes out of
    [_find_replace] as it went in. *)
Theorem find_replace_leaves_other_sources (spec : rules) (source : string) :
  Forall (λ p, ¬ substring_of p.1 source) (spec_pairs spec "find_replace") →
  _find_replace spec source = source.
Proof.
  intros Hpairs. apply find_replace_pairs_absent.
  eapply Forall_impl; [exact Hpairs|].
  intros p Hp. by apply contains_false.
Qed.

Lemma find_replace_leaves_other_sources_witness :
  _find_replace {[ "find_replace" := Pairs [("<br>", " ")] ]} "<p>Hello</p>"
  = "<p>Hello</p>".
Proof.
  apply find_replace_leaves_other_sources.
  change (spec_pairs {[ "find_replace" := Pairs [("<br>", " ")] ]} "find_replace")
    with [("<br>", " ")].
  constructor; [|constructor]. by apply contains_false.
Defined.

(** ** [_extract_first] *)

Section ExtractFacts.

Variable xpath : dom → nat → string → result (list xitem).
Variable fromstring : string → result (node * nat).
Variable cleaned : node → nat → result string.
Variable tostring : node → string.

Local Abbreviation extract_first_loop := (extract_first_loop xpath).
Local Abbreviation _extract_first := (_extract_first xpath).
Local Abbreviation extract_scalars := (extract_scalars xpath).
Local Abbreviation extract_authors := (extract_authors xpath).
Local Abbreviation clean_article :=
  (clean_article xpath fromstring cleaned tostring).
Local Abbreviation cascade_fields :=
  (cascade_fields xpath fromstring cleaned tostring).

Lemma extract_first_loop_skips (d : dom) (etree : nat) (pre rest : list string) :
  Forall (λ expr, xpath d etree expr = Ok []) pre →
  extract_first_loop d etree (pre ++ rest) = extract_first_loop d etree rest.
Proof.
  induction pre as [|expr pre IH]; [done|].
  intros [Hexpr Hpre]%Forall_cons. simpl. rewrite Hexpr. simpl. by apply IH.
Qed.

(** X15. [_extract_first] evaluates the expressions of a component in the order
    they are configured and stops at the first that selects something: its
    first item is the result, whatever the expressions after it would give.
    An expression that fails before that ends the extraction with its
    exception, and when every expression selects nothing the result is
    [None]. *)
Theorem extract_first_stops_at_first_match
  (spec : rules) (d : dom) (etree : nat) (component : string) :
  (∀ pre expr post n more,
     spec_values spec component = pre ++ expr :: post →
     Forall (λ expr, xpath d etree expr = Ok []) pre →
     xpath d etree expr = Ok (n :: more) →
     _extract_first spec d etree component = Ok (Some n)) ∧
  (∀ pre expr post e,
     spec_values spec component = pre ++ expr :: post →
     Forall (λ expr, xpath d etree expr = Ok []) pre →
     xpath d etree expr = Raised e →
     _extract_first spec d etree component = Raised e) ∧
  (Forall (λ expr, xpath d etree expr = Ok []) (spec_values spec component) →
   _extract_first spec d etree component = Ok None).
Proof.
  unfold _extract_first. repeat split.
  - intros pre expr post n more -> Hpre Hexpr.
    rewrite extract_first_loop_skips by done. simpl. by rewrite Hexpr.
  - intros pre expr post e -> Hpre Hexpr.
    rewrite extract_first_loop_skips by done. simpl. by rewrite Hexpr.
  - intros Hall.
    rewrite <- (app_nil_r (spec_values spec component)).
    by rewrite extract_first_loop_skips.
Qed.

(** *** The fields of [clean_article] *)

Lemma extract_scalars_fields (spec : rules) (d : dom) (etree : nat)
  (all : list string) (components : list string) :
  ∀ fields fields',
    components ⊆ all →
    scalar_fields spec all fields →
    extract_scalars spec d etree components fields = Ok fields' →
    scalar_fields spec all fields'.
Proof.
  induction components as [|c components IH]; intros fields fields' Hsub Hf.
  { by intros [= <-]. }
  simpl. intros (n & Hn & Hrest)%bind_Ok.
  assert (components ⊆ all) as Hsub'.
  { intros k Hk. apply Hsub. by right. }
  destruct n as [n|]; [|by eapply IH].
  apply bind_Ok in Hrest as (t & Ht & Hrest).
  eapply IH; [done| |exact Hrest].
  intros k v. destruct (decide (k = c)) as [->|Hk].
  - rewrite lookup_insert_eq. intros [= <-].
    split; [by eexists|]. split; [apply Hsub; by left|].
    intros Hnil. unfold _extract_first in Hn.
    rewrite Hnil in Hn. done.
  - rewrite lookup_insert_ne by done. apply Hf.
Qed.

Lemma extract_authors_none (d : dom) (etree : nat) (xpaths : list string) :
  Forall (λ expr, xpath d etree expr = Ok []) xpaths →
  extract_authors d etree xpaths = Ok [].
Proof.
  induction xpaths as [|expr xpaths IH]; [done|].
  intros [Hexpr Hrest]%Forall_cons. simpl. rewrite Hexpr. simpl.
  by rewrite IH.
Qed.

Lemma clean_article_shape (spec : rules) (source : string)
  (fields : gmap string pyval) :
  clean_article spec source = Ok fields →
  (∃ authors, fields !! "authors" = Some (PStr authors)) ∧
  (∀ k v, fields !! k = Some v →
     (∃ s, v = PStr s) ∧
     k ∈ ["date"; "title"; "footnotes"; "authors"; "html"]) ∧
  (∀ k, k ∈ ["date"; "title"; "footnotes"] → spec_values spec k = [] →
     fields !! k = None) ∧
  (spec_values spec "author" = [] → fields !! "authors" = Some (PStr "")).
Proof.
  unfold clean_article.
  intros (src & _ & (parsed & _ & Hrest)%bind_Ok)%bind_Ok.
  apply bind_Ok in Hrest as (scalars & Hscalars & Hrest).
  apply bind_Ok in Hrest as (authors & Hauthors & Hrest).
  apply bind_Ok in Hrest as (maybe_body & _ & Hrest).
  apply (extract_scalars_fields spec _ _ ["date"; "title"; "footnotes"])
    in Hscalars; [|done|by intros k v ?].
  set (with_authors := <["authors" := PStr (Str.join ", " authors)]> scalars)
    in Hrest.
  assert (∃ html, fields = with_authors ∨
                  fields = <["html" := PStr html]> with_authors) as [html Hfields].
  { destruct maybe_body as [[i|s]|]; [|done|].
    - apply bind_Ok in Hrest as (d1 & _ & Hrest).
      apply bind_Ok in Hrest as (d2 & _ & Hrest).
      apply bind_Ok in Hrest as (d3 & _ & Hrest).
      apply bind_Ok in Hrest as (d4 & _ & Hrest).
      destruct (find_node i d4) as [e|]; injection Hrest as <-.
      + exists (tostring e). by right.
      + exists "". by left.
    - apply bind_Ok in Hrest as (d1 & _ & Hrest).
      apply bind_Ok in Hrest as (d2 & _ & Hrest).
      apply bind_Ok in Hrest as (d3 & _ & Hrest).
      apply bind_Ok in Hrest as (d4 & _ & Hrest).
      destruct (find_node parsed.2 d4) as [e|]; injection Hrest as <-.
      + exists (tostring e). by right.
      + exists "". by left. }
  assert (∀ k, k ≠ "authors" → k ≠ "html" → fields !! k = scalars !! k) as Hother.
  { intros k ? ?. unfold with_authors in Hfields.
    destruct Hfields as [-> | ->]; by simplify_map_eq. }
  assert (fields !! "authors" = Some (PStr (Str.join ", " authors))) as Ha.
  { unfold with_authors in Hfields.
    destruct Hfields as [-> | ->]; by simplify_map_eq. }
  split; [by eexists|]. split; [|split].
  - intros k v Hk.
    destruct (decide (k = "authors")) as [->|?].
    { rewrite Ha in Hk. injection Hk as <-. split; [by eexists|]. rewrite !elem_of_cons. tauto. }
    destruct (decide (k = "html")) as [->|?].
    { split; [|rewrite !elem_of_cons; tauto]. unfold with_authors in Hfields.
      destruct Hfields as [-> | ->]; simplify_map_eq; [|by eexists].
      by destruct (Hscalars _ _ Hk) as (? & ? & _). }
    rewrite Hother in Hk by done.
    destruct (Hscalars _ _ Hk) as (? & Hin & _). split; [done|].
    rewrite !elem_of_cons in *. tauto.
  - intros k Hk Hnil.
    assert (k ≠ "authors" ∧ k ≠ "html") as [? ?].
    { rewrite !elem_of_cons, elem_of_nil in Hk.
      destruct Hk as [->|[->|[->|[]]]]; done. }
    rewrite Hother by done.
    destruct (scalars !! k) as [v|] eqn:Hv; [|done].
    by destruct (Hscalars _ _ Hv) as (_ & _ & ?).
  - intros Hnil. rewrite Hnil in Hauthors. injection Hauthors as <-. done.
Qed.

(** X16. What [clean_article] returns when it returns: an [authors] field, always,
    which is the empty string when the rule set has no author expression;
    and besides it only string fields among [date], [title], [footnotes] and
    [html], the first three only for components the rule set has an
    expression for. *)
Theorem clean_article_fields (spec : rules) (source : string)
  (fields : gmap string pyval) :
  clean_article spec source = Ok fields →
  (∃ authors, fields !! "authors" = Some (PStr authors)) ∧
  (∀ k v, fields !! k = Some v →
     (∃ s, v = PStr s) ∧
     k ∈ ["date"; "title"; "footnotes"; "authors"; "html"]) ∧
  (∀ k, k ∈ ["date"; "title"; "footnotes"] → spec_values spec k = [] →
     fields !! k = None) ∧
  (spec_values spec "author" = [] → fields !! "authors" = Some (PStr "")).
Proof. apply clean_article_shape. Qed.

(** X17. A component the rule set has no expression for keeps the value of the
    baseline in the cascade: the scraper returns no [date], [title] or
    [footnotes] for it, and an empty [authors], which does not override. *)
Theorem cascade_keeps_unconfigured_fields
  (extracted : option (gmap string pyval)) (spec : rules) (content : string)
  (fields : gmap string pyval) :
  cascade_fields extracted (Some spec) content = Ok fields →
  (∀ k, k ∈ ["date"; "title"; "footnotes"] → spec_values spec k = [] →
        fields !! k = baseline extracted content !! k) ∧
  (spec_values spec "author" = [] →
   fields !! "authors" = baseline extracted content !! "authors").
Proof.
  unfold cascade_fields.
  intros (override & Hclean & [= <-])%bind_Ok.
  apply clean_article_shape in Hclean as (_ & _ & Hscalars & Hauthors).
  split.
  - intros k Hk Hnil. rewrite merge_fields_lookup.
    by rewrite (Hscalars k Hk Hnil).
  - intros Hnil. rewrite merge_fields_lookup. by rewrite (Hauthors Hnil).
Qed.

End ExtractFacts.

Example extract_first_second_expression :
  _extract_first sample_xpath article_rules
    (Dom (el 0 "html" [] "" [el 1 "body" [] "" [el 2 "p" [] "Hello" [] ""] ""] "") [])
    2 "title"
  = Ok (Some (XNode 2)).
Proof. reflexivity. Qed.

Lemma clean_article_fields_witness :
  let fields : gmap string pyval :=
    {[ "title" := PStr "Hello"; "authors" := PStr ""; "html" := PStr "Hello" ]} in
  (∃ authors, fields !! "authors" = Some (PStr authors)) ∧
  (∀ k v, fields !! k = Some v →
     (∃ s, v = PStr s) ∧
     k ∈ ["date"; "title"; "footnotes"; "authors"; "html"]) ∧
  (∀ k, k ∈ ["date"; "title"; "footnotes"] →
     spec_values article_rules k = [] → fields !! k = None) ∧
  (spec_values article_rules "author" = [] →
   fields !! "authors" = Some (PStr "")).
Proof.
  intros fields.
  apply (clean_article_fields sample_xpath fromstring_stub cleaned_stub
           tostring_stub article_rules "Hello" fields).
  vm_compute. reflexivity.
Defined.

Lemma cascade_keeps_unconfigured_fields_witness :
  let fields : gmap string pyval :=
    {[ "title" := PStr "Hello"; "authors" := PStr "A. Writer";
       "html" := PStr "Hello" ]} in
  (∀ k, k ∈ ["date"; "title"; "footnotes"] →
     spec_values article_rules k = [] →
     fields !! k =
       baseline (Some {[ "title" := PStr "Generic";
                         "authors" := PStr "A. Writer" ]}) "Hello" !! k) ∧
  (spec_values article_rules "author" = [] →
   fields !! "authors" =
     baseline (Some {[ "title" := PStr "Generic";
                       "authors" := PStr "A. Writer" ]}) "Hello" !! "authors").
Proof.
  intros fields.
  apply (cascade_keeps_unconfigured_fields sample_xpath fromstring_stub
           cleaned_stub tostring_stub
           (Some {[ "title" := PStr "Generic"; "authors" := PStr "A. Writer" ]})
           article_rules "Hello" fields).
  vm_compute. reflexivity.
Defined.

(** ** What [drop_tree] leaves in the document *)

Lemma drop_after_keeps (i j : nat) (cs : list node) :
  ∀ prev, j ∈ flat_map ids (prev :: cs) →
    (∀ c, c ∈ cs → node_id c = i → j ∉ ids c) →
    j ∈ flat_map ids (drop_after i prev cs).
Proof.
  induction cs as [|c cs IH]; intros prev Hj Hc; [done|].
  cbn [drop_after]. destruct (Nat.eqb_spec (node_id c) i) as [Heq|Hne].
  - cbn [flat_map] in *. rewrite ids_set_tail.
    rewrite !elem_of_app in Hj. rewrite elem_of_app.
    destruct Hj as [?|[Hin|?]]; [by left| |by right].
    exfalso. apply (Hc c); [by left|done..].
  - change (flat_map ids (prev :: drop_after i c cs))
      with (ids prev ++ flat_map ids (drop_after i c cs)).
    change (flat_map ids (prev :: c :: cs))
      with (ids prev ++ flat_map ids (c :: cs)) in Hj.
    rewrite elem_of_app in *. destruct Hj as [?|Hj]; [by left|right].
    apply IH; [done|]. intros c' Hc'. apply Hc. by right.
Qed.

Lemma drop_child_keeps (i j : nat) (x : string) (cs : list node) :
  j ∈ flat_map ids cs →
  (∀ c, c ∈ cs → node_id c = i → j ∉ ids c) →
  j ∈ flat_map ids (drop_child i x cs).2.
Proof.
  destruct cs as [|c cs]; [done|]. intros Hj Hc. cbn [drop_child].
  destruct (Nat.eqb_spec (node_id c) i) as [Heq|Hne]; cbn [snd].
  - cbn [flat_map] in Hj. rewrite elem_of_app in Hj.
    destruct Hj as [Hin|?]; [|done].
    exfalso. apply (Hc c); [by left|done..].
  - apply drop_after_keeps; [done|]. intros c' Hc'. apply Hc. by right.
Qed.

Lemma drop_desc_keeps (i j : nat) (t : node) :
  j ∈ ids t → ¬ inside t i j → j ∈ ids (drop_desc i t).
Proof.
  induction t as [r tg a x cs tl IH] using node_tree_ind.
  intros Hj Hout. rewrite ids_unfold in Hj. cbn [node_id children_of] in Hj.
  apply elem_of_cons in Hj as [->|Hj].
  { rewrite <- (drop_desc_id i (Node r tg a x cs tl)) at 1.
    apply node_id_in_ids. }
  assert (∀ c, c ∈ cs → ¬ inside c i j) as Hcs.
  { intros c Hc (e & He & Hid & Hin). apply Hout. exists e.
    split; [|done]. rewrite nodes_unfold. right.
    apply elem_of_flat_map. by exists c. }
  cbn [drop_desc]. destruct (is_child i cs) eqn:Hchild.
  - destruct (drop_child i x cs) as [x' cs'] eqn:Hdrop.
    rewrite ids_unfold. cbn [node_id children_of]. right.
    replace cs' with (drop_child i x cs).2 by by rewrite Hdrop.
    apply drop_child_keeps; [done|].
    intros c Hc Hid Hin. apply (Hcs c Hc). exists c.
    split; [apply node_in_nodes|done].
  - rewrite ids_unfold. cbn [node_id children_of]. right.
    apply elem_of_flat_map in Hj as (c & Hc & Hj).
    apply elem_of_flat_map. exists (drop_desc i c).
    split; [apply list_elem_of_fmap; by exists c|].
    rewrite Forall_forall in IH. apply IH; [done|done|].
    by apply Hcs.
Qed.

(** A node of the tree after a drop is a node of the tree before, with no
    new descendant. *)
Lemma drop_desc_subtree (i : nat) (t m' : node) :
  m' ∈ nodes (drop_desc i t) →
  ∃ m, m ∈ nodes t ∧ node_id m' = node_id m ∧ ids m' ⊆ ids m.
Proof.
  revert m'. induction t as [r tg a x cs tl IH] using node_tree_ind.
  intros m' Hm'. rewrite nodes_unfold in Hm'.
  apply elem_of_cons in Hm' as [->|Hm'].
  { exists (Node r tg a x cs tl). split; [apply node_in_nodes|].
    split; [apply drop_desc_id|].
    apply sublist_subseteq, drop_desc_ids_sublist. }
  cbn [drop_desc] in Hm'. destruct (is_child i cs) eqn:Hchild.
  - destruct (drop_child i x cs) as [x' cs'] eqn:Hdrop.
    cbn [children_of] in Hm'.
    apply elem_of_flat_map in Hm' as (c' & Hc' & Hm').
    destruct (drop_child_variant i x cs c') as (c & tl' & Hc & ->);
      [by rewrite Hdrop|].
    rewrite nodes_set_tail in Hm'.
    apply elem_of_cons in Hm' as [->|Hm'].
    + exists c. split.
      * rewrite nodes_unfold. right. apply elem_of_flat_map.
        exists c. split; [done|apply node_in_nodes].
      * split; [by destruct c|]. by rewrite ids_set_tail.
    + exists m'. split; [|done].
      rewrite nodes_unfold. right. apply elem_of_flat_map. exists c.
      split; [done|]. rewrite nodes_unfold. by right.
  - cbn [children_of] in Hm'.
    apply elem_of_flat_map in Hm' as (c' & Hc' & Hm').
    apply list_elem_of_fmap in Hc' as (c & -> & Hc).
    rewrite Forall_forall in IH.
    destruct (IH c Hc m' Hm')
      as (m & Hm & Hid & Hsub).
    exists m. split; [|done].
    rewrite nodes_unfold. right. apply elem_of_flat_map. by exists c.
Qed.

Lemma inside_drop_desc (k i j : nat) (t : node) :
  inside (drop_desc k t) i j → inside t i j.
Proof.
  intros (e' & He' & Hid & Hj).
  apply drop_desc_subtree in He' as (e & He & Heq & Hsub).
  exists e. split; [done|]. split; [congruence|by apply Hsub].
Qed.

Lemma drop_tree_document (i : nat) (d d' : dom) :
  drop_tree i d = Ok d' → document d' = drop_desc i (document d).
Proof.
  unfold drop_tree. case_bool_decide; [done|].
  destruct (find_node i d) as [e|] eqn:Hfind; intros [= <-]; [done|].
  symmetry. apply drop_desc_absent. intros Hin.
  by apply (find_node_None _ _ Hfind), document_ids_in_dom.
Qed.

Lemma drop_seq_keeps (l : list nat) (j : nat) :
  ∀ d d', drop_seq l d = Ok d' →
    j ∈ ids (document d) →
    (∀ i, i ∈ l → ¬ inside (document d) i j) →
    j ∈ ids (document d').
Proof.
  induction l as [|i l IH]; intros d d'; simpl.
  { by intros [= <-]. }
  intros (d1 & Hdrop & Hrest)%bind_Ok Hj Hout.
  apply drop_tree_document in Hdrop.
  apply (IH d1 d' Hrest).
  - rewrite Hdrop. apply drop_desc_keeps; [done|]. apply Hout. by left.
  - intros i' Hi' Hin. rewrite Hdrop in Hin.
    apply inside_drop_desc in Hin. apply (Hout i'); [by right|done].
Qed.

(** *** Subtrees of a document with distinct identities *)

Lemma NoDup_flat_map_elem {A B : Type} (f : A → list B) (l : list A) (x : A) :
  NoDup (flat_map f l) → x ∈ l → NoDup (f x).
Proof.
  induction l as [|a l IH]; simpl; [by intros _ ?%elem_of_nil|].
  intros (Ha & _ & Hl)%NoDup_app [->|Hx]%elem_of_cons; [done|by apply IH].
Qed.

Lemma NoDup_flat_map_inj {A B : Type} (f : A → list B) (l : list A)
  (x y : A) (z : B) :
  NoDup (flat_map f l) → x ∈ l → y ∈ l → z ∈ f x → z ∈ f y → x = y.
Proof.
  induction l as [|a l IH]; simpl; [by intros _ ?%elem_of_nil|].
  intros (Ha & Hdisj & Hl)%NoDup_app Hx Hy Hzx Hzy.
  apply elem_of_cons in Hx as [->|Hx]; apply elem_of_cons in Hy as [->|Hy].
  - done.
  - exfalso. apply (Hdisj z Hzx). apply elem_of_flat_map. by exists y.
  - exfalso. apply (Hdisj z Hzy). apply elem_of_flat_map. by exists x.
  - by apply IH.
Qed.

Lemma child_in_nodes (c m : node) : c ∈ children_of m → c ∈ nodes m.
Proof.
  intros Hc. rewrite nodes_unfold. right. apply elem_of_flat_map.
  exists c. split; [done|apply node_in_nodes].
Qed.

Lemma ids_subtree (t m : node) : m ∈ nodes t → ids m ⊆ ids t.
Proof.
  intros Hm j Hj. apply list_elem_of_fmap in Hj as (n & -> & Hn).
  apply list_elem_of_fmap. exists n. split; [done|].
  by apply (nodes_subtree t m).
Qed.

Lemma NoDup_subtree (t m : node) : NoDup (ids t) → m ∈ nodes t → NoDup (ids m).
Proof.
  induction t as [r tg a x cs tl IH] using node_tree_ind.
  intros Hnd Hm. rewrite nodes_unfold in Hm.
  apply elem_of_cons in Hm as [->|Hm]; [done|].
  cbn [children_of] in Hm. apply elem_of_flat_map in Hm as (c & Hc & Hm).
  rewrite ids_unfold in Hnd. apply NoDup_cons in Hnd as [_ Hnd].
  cbn [children_of] in Hnd.
  rewrite Forall_forall in IH. apply (IH c Hc); [|done].
  by apply (NoDup_flat_map_elem ids cs).
Qed.

(** The node of the tree before that a node of the tree after comes from. *)
Lemma preserved_origin (t t' m m' : node) :
  NoDup (ids t) → preserved (nodes t) (nodes t') →
  m' ∈ nodes t' → m ∈ nodes t → node_id m = node_id m' →
  same_element m m'.
Proof.
  intros Hnd Hpres Hm' Hm Hid.
  destruct (Hpres m' Hm') as (m0 & Hm0 & Hsame).
  assert (m0 = m) as ->; [|done].
  apply (nodes_id_inj t); [done..|]. destruct Hsame as (Heq & _). congruence.
Qed.

Lemma preserved_child (t t' m m' c' : node) :
  NoDup (ids t) → preserved (nodes t) (nodes t') →
  m' ∈ nodes t' → m ∈ nodes t → node_id m = node_id m' →
  c' ∈ children_of m' →
  ∃ c, c ∈ children_of m ∧ node_id c = node_id c'.
Proof.
  intros Hnd Hpres Hm' Hm Hid Hc'.
  destruct (preserved_origin t t' m m' Hnd Hpres Hm' Hm Hid)
    as (_ & _ & _ & _ & Hsub).
  assert (node_id c' ∈ map node_id (children_of m)) as Hin.
  { apply (sublist_subseteq _ _ Hsub). apply list_elem_of_fmap. by exists c'. }
  apply list_elem_of_fmap in Hin as (c & Heq & Hc). by exists c.
Qed.

Lemma preserved_ids (t t' : node) :
  NoDup (ids t) → preserved (nodes t) (nodes t') →
  ∀ m', m' ∈ nodes t' →
    ∀ m, m ∈ nodes t → node_id m = node_id m' → ids m' ⊆ ids m.
Proof.
  intros Hnd Hpres.
  induction m' as [r tg a x cs' tl IH] using node_tree_ind.
  intros Hm' m Hm Hid k Hk. rewrite ids_unfold in Hk.
  cbn [node_id children_of] in Hk, Hid.
  apply elem_of_cons in Hk as [->|Hk].
  { rewrite <- Hid. apply node_id_in_ids. }
  apply elem_of_flat_map in Hk as (c' & Hc' & Hk).
  destruct (preserved_child t t' m _ c' Hnd Hpres Hm' Hm Hid Hc')
    as (c & Hc & Hcid).
  rewrite Forall_forall in IH.
  apply (ids_subtree m c); [by apply child_in_nodes|].
  apply (IH c' Hc'); [|by apply (nodes_subtree t m), child_in_nodes|done|done].
  apply (nodes_subtree t' (Node r tg a x cs' tl)); [done|].
  by apply child_in_nodes.
Qed.

(** An identity that is still in a subtree after the drops sits there under
    the nodes it sat under before. *)
Lemma survivors_subtree (t t' : node) :
  NoDup (ids t) → preserved (nodes t) (nodes t') →
  ∀ m', m' ∈ nodes t' →
    ∀ m, m ∈ nodes t → node_id m = node_id m' →
    ∀ e j, e ∈ nodes m → j ∈ ids e → j ∈ ids m' →
      ∃ e', e' ∈ nodes m' ∧ node_id e' = node_id e ∧ j ∈ ids e'.
Proof.
  intros Hnd Hpres.
  induction m' as [r tg a x cs' tl IH] using node_tree_ind.
  intros Hm' m Hm Hid e j He Hje Hjm'.
  rewrite nodes_unfold in He. apply elem_of_cons in He as [->|He].
  { eexists. split; [apply node_in_nodes|]. by split. }
  apply elem_of_flat_map in He as (c & Hc & He).
  assert (j ∈ ids c) as Hjc by by apply (ids_subtree c e).
  pose proof (NoDup_subtree t m Hnd Hm) as Hndm.
  rewrite ids_unfold in Hndm. apply NoDup_cons in Hndm as [Hroot Hndm].
  rewrite ids_unfold in Hjm'. cbn [node_id children_of] in Hjm', Hid.
  apply elem_of_cons in Hjm' as [->|Hjm'].
  { exfalso. apply Hroot. rewrite Hid. apply elem_of_flat_map. by exists c. }
  apply elem_of_flat_map in Hjm' as (c' & Hc' & Hjc').
  destruct (preserved_child t t' m _ c' Hnd Hpres Hm' Hm Hid Hc')
    as (c2 & Hc2 & Hcid).
  assert (c' ∈ nodes t') as Hc't'.
  { apply (nodes_subtree t' (Node r tg a x cs' tl)); [done|].
    by apply child_in_nodes. }
  assert (c2 ∈ nodes t) as Hc2t
    by by apply (nodes_subtree t m), child_in_nodes.
  assert (j ∈ ids c2) as Hjc2
    by by apply (preserved_ids t t' Hnd Hpres c' Hc't' c2 Hc2t Hcid).
  assert (c = c2) as -> by by apply (NoDup_flat_map_inj ids (children_of m) _ _ j).
  rewrite Forall_forall in IH.
  destruct (IH c' Hc' Hc't' c2 Hc2t Hcid e j He Hje Hjc') as (e' & He' & Heid & Hje').
  exists e'. split; [|done].
  rewrite nodes_unfold. right. apply elem_of_flat_map. by exists c'.
Qed.

Lemma covered_survives (q : node → bool) (t t' : node) (j : nat) :
  NoDup (ids t) → shrinks t t' → by_tag_and_attrib q →
  j ∈ ids t' → covered q t j → covered q t' j.
Proof.
  intros Hnd (Hid & _ & _ & _ & Hpres) Hq Hj (e & He & Hqe & Hje).
  destruct (survivors_subtree t t' Hnd Hpres t' (node_in_nodes t') t
              (node_in_nodes t) (eq_sym Hid) e j He Hje Hj)
    as (e' & He' & Heid & Hje').
  exists e'. split; [done|]. split; [|done].
  destruct (preserved_origin t t' e e' Hnd Hpres He' He (eq_sym Heid))
    as (_ & Htag & Hattr & _).
  rewrite <- Hqe. by apply Hq.
Qed.

Lemma covered_before (q : node → bool) (t t' : node) (j : nat) :
  NoDup (ids t) → shrinks t t' → by_tag_and_attrib q →
  covered q t' j → covered q t j.
Proof.
  intros Hnd (_ & _ & _ & _ & Hpres) Hq (e' & He' & Hqe & Hje).
  destruct (Hpres e' He') as (e & He & Hsame).
  exists e. split; [done|]. split.
  - rewrite <- Hqe. destruct Hsame as (_ & Htag & Hattr & _).
    symmetry. by apply Hq.
  - apply (preserved_ids t t' Hnd Hpres e' He' e He); [|done].
    by destruct Hsame as (-> & _).
Qed.

(** ** The passes that select by attribute remove the selection only *)

Lemma drop_selected_exact (p : node → bool) (d : dom) :
  wf_dom d → by_tag_and_attrib p → p (document d) = false →
  ∃ d', drop_all (select p d) d = Ok d' ∧ wf_dom d' ∧
        shrinks (document d) (document d') ∧
        ∀ j, j ∈ ids (document d') ↔
             j ∈ ids (document d) ∧ ¬ covered p (document d) j.
Proof.
  intros Hwf Hp Hroot.
  destruct (drop_selected p d Hwf Hroot) as (d' & Hdrop & Hwf' & Hshr & Hgone).
  exists d'. split; [done|]. split; [done|]. split; [done|].
  intros j. split.
  - intros Hj. split; [by apply Hshr|].
    intros Hcov.
    destruct (covered_survives p _ _ j (proj1 Hwf) Hshr Hp Hj Hcov)
      as (e' & He' & Hpe' & _).
    destruct Hshr as (_ & _ & _ & _ & Hpres).
    destruct (Hpres e' He') as (e & He & Hid & Htag & Hattr & _).
    apply (Hgone e He).
    + rewrite <- Hpe'. symmetry. by apply Hp.
    + rewrite <- Hid. apply list_elem_of_fmap. by exists e'.
  - intros [Hj Hout].
    set (l := map node_id (filter (λ n, p n = true) (nodes (document d)))).
    assert (select p d = map XNode l) as Hsel.
    { unfold select, l. by rewrite map_map. }
    rewrite Hsel, drop_all_nodes in Hdrop.
    apply (drop_seq_keeps l j d d' Hdrop Hj).
    intros i Hi (e & He & Hid & Hje). apply Hout.
    apply list_elem_of_fmap in Hi as (n & -> & Hn).
    apply list_elem_of_filter in Hn as [Hpn Hn].
    assert (e = n) as -> by by apply (nodes_id_inj (document d)); [apply Hwf|..].
    by exists n.
Qed.

Lemma drop_selections_exact (ps : list (node → bool)) :
  ∀ d, wf_dom d →
    Forall (λ p, by_tag_and_attrib p ∧ p (document d) = false) ps →
    ∃ d', drop_selections ps d = Ok d' ∧ wf_dom d' ∧
          shrinks (document d) (document d') ∧
          ∀ j, j ∈ ids (document d') ↔
               j ∈ ids (document d) ∧
               ∀ p, p ∈ ps → ¬ covered p (document d) j.
Proof.
  induction ps as [|p ps IH]; intros d Hwf Hps.
  { exists d. split; [done|]. split; [done|]. split; [apply shrinks_refl|].
    intros j. split; [|by intros [? _]].
    intros Hj. split; [done|]. by intros p ?%elem_of_nil. }
  apply Forall_cons in Hps as [[Hp Hroot] Hps].
  destruct (drop_selected_exact p d Hwf Hp Hroot)
    as (d1 & Hdrop & Hwf1 & Hshr1 & Hexact1).
  destruct (IH d1 Hwf1) as (d' & Hrest & Hwf' & Hshr' & Hexact').
  { eapply Forall_impl; [exact Hps|]. intros q [Hq Hqroot]. split; [done|].
    rewrite <- Hqroot. destruct Hshr1 as (_ & Htag & Hattr & _). by apply Hq. }
  exists d'. simpl. rewrite Hdrop. simpl.
  split; [done|]. split; [done|]. split; [by eapply shrinks_trans|].
  intros j. rewrite Hexact', Hexact1. split.
  - intros [[Hj Hp1] Hout]. split; [done|].
    intros q [->|Hq]%elem_of_cons; [done|].
    intros Hcov. apply (Hout q Hq).
    apply (covered_survives q (document d)); [apply Hwf|done| |by apply Hexact1|done].
    rewrite Forall_forall in Hps. by apply Hps.
  - intros [Hj Hout]. split; [split; [done|apply Hout; by left]|].
    intros q Hq Hcov. apply (Hout q); [by right|].
    apply (covered_before q (document d) (document d1)); [apply Hwf|done| |done].
    rewrite Forall_forall in Hps. by apply Hps.
Qed.

Lemma matches_image_src_by_tag_and_attrib (v : string) :
  by_tag_and_attrib (matches_image_src v).
Proof.
  intros n n' Htag Hattr. unfold matches_image_src, has_tag.
  by rewrite Htag, Hattr.
Qed.

Lemma matches_id_or_class_by_tag_and_attrib (v : string) :
  by_tag_and_attrib (matches_id_or_class v).
Proof. intros n n' Htag Hattr. by apply matches_id_or_class_same. Qed.

Section Selections.

Variable xpath : dom → nat → string → result (list xitem).

Lemma strip_image_src_loop_selections (etree : nat) (values : list string) :
  Forall (λ value, plain_literal (Str.strip quote_chars value) = true) values →
  ∀ d, strip_image_src_loop xpath etree values d =
       drop_selections
         (map (λ value, matches_image_src (Str.strip quote_chars value)) values) d.
Proof.
  induction values as [|value values IH]; [done|].
  intros [Hplain Hvalues]%Forall_cons d. simpl.
  unfold _drop_by_xpath, eval_image_src. rewrite Hplain. simpl.
  destruct (drop_all _ d) as [d1|e]; simpl; [by apply IH|done].
Qed.

Lemma strip_id_or_class_loop_selections (etree : nat) (values : list string) :
  Forall (λ value, plain_literal (Str.strip quote_chars value) = true) values →
  ∀ d, strip_id_or_class_loop xpath etree values d =
       drop_selections
         (map (λ value, matches_id_or_class (Str.strip quote_chars value)) values) d.
Proof.
  induction values as [|value values IH]; [done|].
  intros [Hplain Hvalues]%Forall_cons d. simpl.
  unfold _drop_by_xpath, eval_id_or_class. rewrite Hplain. simpl.
  destruct (drop_all _ d) as [d1|e]; simpl; [by apply IH|done].
Qed.

(** X18. In a well-formed state, when every configured value, trimmed of
    surrounding spaces and quote characters, is a plain literal and the root
    of the document is not an image it matches, the [strip_image_src] pass
    succeeds, and what is left in the document is exactly what was there
    and is neither an [img] element whose [src] contains a trimmed value nor
    a descendant of one. *)
Theorem strip_image_src_removes_exactly
  (spec : rules) (etree : nat) (d : dom) :
  wf_dom d →
  Forall (λ value,
    plain_literal (Str.strip quote_chars value) = true ∧
    matches_image_src (Str.strip quote_chars value) (document d) = false)
    (spec_values spec "strip_image_src") →
  ∃ d', _strip_image_src xpath spec etree d = Ok d' ∧
    ∀ j, j ∈ ids (document d') ↔
         j ∈ ids (document d) ∧
         ∀ value, value ∈ spec_values spec "strip_image_src" →
           ¬ covered (matches_image_src (Str.strip quote_chars value))
               (document d) j.
Proof.
  intros Hwf Hvalues. unfold _strip_image_src.
  rewrite strip_image_src_loop_selections
    by (eapply Forall_impl; [exact Hvalues|]; by intros v [? _]).
  destruct (drop_selections_exact
              (map (λ value, matches_image_src (Str.strip quote_chars value))
                 (spec_values spec "strip_image_src")) d Hwf)
    as (d' & Hdrop & _ & _ & Hexact).
  { apply Forall_fmap. eapply Forall_impl; [exact Hvalues|].
    intros v [_ Hroot]. split; [apply matches_image_src_by_tag_and_attrib|done]. }
  exists d'. split; [done|]. intros j. rewrite Hexact. split.
  - intros [Hj Hout]. split; [done|]. intros v Hv. apply Hout.
    apply list_elem_of_fmap. by exists v.
  - intros [Hj Hout]. split; [done|].
    intros p (v & -> & Hv)%list_elem_of_fmap. by apply Hout.
Qed.

(** X19. Under the conditions of the [strip_id_or_class] pass, what is left in the
    document is exactly what was there and is neither an element whose
    [class] or [id] contains a trimmed value nor a descendant of one:
    nothing else is removed. *)
Theorem strip_id_or_class_removes_exactly
  (spec : rules) (etree : nat) (d : dom) :
  wf_dom d →
  Forall (λ value,
    plain_literal (Str.strip quote_chars value) = true ∧
    matches_id_or_class (Str.strip quote_chars value) (document d) = false)
    (spec_values spec "strip_id_or_class") →
  ∃ d', _strip_id_or_class xpath spec etree d = Ok d' ∧
    ∀ j, j ∈ ids (document d') ↔
         j ∈ ids (document d) ∧
         ∀ value, value ∈ spec_values spec "strip_id_or_class" →
           ¬ covered (matches_id_or_class (Str.strip quote_chars value))
               (document d) j.
Proof.
  intros Hwf Hvalues. unfold _strip_id_or_class.
  rewrite strip_id_or_class_loop_selections
    by (eapply Forall_impl; [exact Hvalues|]; by intros v [? _]).
  destruct (drop_selections_exact
              (map (λ value, matches_id_or_class (Str.strip quote_chars value))
                 (spec_values spec "strip_id_or_class")) d Hwf)
    as (d' & Hdrop & _ & _ & Hexact).
  { apply Forall_fmap. eapply Forall_impl; [exact Hvalues|].
    intros v [_ Hroot].
    split; [apply matches_id_or_class_by_tag_and_attrib|done]. }
  exists d'. split; [done|]. intros j. rewrite Hexact. split.
  - intros [Hj Hout]. split; [done|]. intros v Hv. apply Hout.
    apply list_elem_of_fmap. by exists v.
  - intros [Hj Hout]. split; [done|].
    intros p (v & -> & Hv)%list_elem_of_fmap. by apply Hout.
Qed.

End Selections.

Lemma gallery_wf : wf_dom (Dom gallery []).
Proof.
  split.
  - apply (bool_decide_unpack _). by vm_compute.
  - by intros r ?%elem_of_nil.
Defined.

Lemma strip_image_src_removes_exactly_witness :
  ∃ d', _strip_image_src no_xpath gallery_rules 1 (Dom gallery []) = Ok d' ∧
        (3 ∉ ids (document d')) ∧ 4 ∈ ids (document d').
Proof.
  destruct (strip_image_src_removes_exactly no_xpath gallery_rules 1
              (Dom gallery []) gallery_wf) as (d' & Hpass & Hexact).
  - constructor; [|constructor]. split; reflexivity.
  - exists d'. split; [exact Hpass|]. split.
    + intros Hin. apply Hexact in Hin as [_ Hout].
      apply (Hout "ads.example.com"); [by left|].
      exists (el 3 "img" [("src", "http://ads.example.com/banner.png")] "" [] "").
      split; [|split; [reflexivity|by left]].
      apply list_elem_of_In. simpl. do 3 right. by left.
    + apply Hexact. split.
      { apply list_elem_of_In. simpl. do 4 right. by left. }
      intros v Hv (e & He & Hm & Hj).
      apply list_elem_of_In in Hv. simpl in Hv. destruct Hv as [<-|[]].
      apply list_elem_of_In in He. simpl in He.
      destruct He as [<-|[<-|[<-|[<-|[<-|[]]]]]]; try discriminate Hm.
      apply list_elem_of_In in Hj. simpl in Hj. by destruct Hj as [?|[]].
Defined.

Lemma strip_id_or_class_removes_exactly_witness :
  ∃ d', _strip_id_or_class no_xpath page_rules 2 (Dom page []) = Ok d' ∧
        (node_id advert ∉ ids (document d')) ∧ 3 ∈ ids (document d').
Proof.
  destruct (strip_id_or_class_removes_exactly no_xpath page_rules 2
              (Dom page []) page_wf) as (d' & Hpass & Hexact).
  - constructor; [|constructor]. split; reflexivity.
  - exists d'. split; [exact Hpass|]. split.
    + intros Hin. apply Hexact in Hin as [_ Hout].
      apply (Hout "'class1'"); [by left|].
      exists advert. split; [|split; [reflexivity|by left]].
      apply list_elem_of_In. simpl. do 4 right. by left.
    + apply Hexact. split.
      { apply list_elem_of_In. simpl. do 3 right. by left. }
      intros v Hv (e & He & Hm & Hj).
      apply list_elem_of_In in Hv. simpl in Hv. destruct Hv as [<-|[]].
      apply list_elem_of_In in He. simpl in He.
      repeat (destruct He as [<-|He]; [try discriminate Hm|]); [|done].
      apply list_elem_of_In in Hj. simpl in Hj. by destruct Hj as [?|[]].
Defined.

(** ** What pruning never removes *)

















(** ** What pruning removes *)











(** ** Reading test cases, part by part *)

Lemma add_to_last_app (cases1 cases2 : list TestCase) (fragment : string) :
  cases2 ≠ [] →
  add_to_last (cases1 ++ cases2) fragment
  = cases1 ++ add_to_last cases2 fragment.
Proof.
  intros Hne. induction cases1 as [|c cases1 IH]; [done|].
  change ((c :: cases1) ++ cases2) with (c :: (cases1 ++ cases2)).
  destruct (cases1 ++ cases2) as [|c' rest] eqn:Happ.
  { by apply app_eq_nil in Happ as [_ ?]. }
  change (c :: add_to_last (c' :: rest) fragment
          = c :: (cases1 ++ add_to_last cases2 fragment)).
  by rewrite IH.
Qed.

Section LoadParts.

Variable open_lines : string → result (list string).
Variable decode : string → result string.

Local Abbreviation load_lines := (load_lines decode).
Local Abbreviation load_testcases := (load_testcases open_lines decode).

Lemma load_lines_cons (fpath line_str : string) (lines : list string)
  (cases : list TestCase) :
  load_lines fpath (line_str :: lines) cases =
    line ⇐ decode line_str;
    if String.eqb (parse_specline line).1 "test_url" then
      load_lines fpath lines (cases ++ [MkTestCase (parse_specline line).2 []])
    else if String.eqb (parse_specline line).1 "test_contains" then
      if (length cases =? 0)%nat then Raised (invalid_spec_file fpath)
      else load_lines fpath lines (add_to_last cases (parse_specline line).2)
    else load_lines fpath lines cases.
Proof. reflexivity. Qed.

Lemma load_lines_app (fpath : string) (lines1 lines2 : list string) :
  ∀ cases, load_lines fpath (lines1 ++ lines2) cases =
    cases1 ⇐ load_lines fpath lines1 cases; load_lines fpath lines2 cases1.
Proof.
  induction lines1 as [|line_str lines1 IH]; intros cases; [done|].
  change ((line_str :: lines1) ++ lines2) with (line_str :: (lines1 ++ lines2)).
  rewrite !load_lines_cons.
  destruct (decode line_str) as [line|e]; [|done]. cbn [bind].
  destruct (String.eqb (parse_specline line).1 "test_url"); [apply IH|].
  destruct (String.eqb (parse_specline line).1 "test_contains"); [|apply IH].
  destruct (length cases =? 0)%nat; [done|apply IH].
Qed.

Lemma load_lines_prefixed (fpath fpath' : string) (before : list TestCase)
  (lines : list string) :
  ∀ cases cases', load_lines fpath lines cases = Ok cases' →
    load_lines fpath' lines (before ++ cases) = Ok (before ++ cases').
Proof.
  induction lines as [|line_str lines IH]; intros cases cases'.
  { by intros [= <-]. }
  rewrite !load_lines_cons.
  destruct (decode line_str) as [line|e]; [|done]. cbn [bind].
  destruct (String.eqb (parse_specline line).1 "test_url").
  { intros H. rewrite <- app_assoc. by apply IH. }
  destruct (String.eqb (parse_specline line).1 "test_contains"); [|apply IH].
  destruct cases as [|c cases]; [done|].
  rewrite length_app. cbn [length].
  replace (length before + S (length cases) =? 0)%nat with false
    by (symmetry; apply Nat.eqb_neq; lia).
  cbn [Nat.eqb]. intros H. rewrite add_to_last_app by done. by apply IH.
Qed.

(** X7. A part of a file that loads on its own gives the same cases behind any
    other part that loads: a [test_contains] line goes to the case of the
    latest [test_url] line before it, and to no earlier one. *)
Theorem load_testcases_concatenates
  (fpath1 fpath2 fpath : string) (lines1 lines2 : list string)
  (cases1 cases2 : list TestCase) :
  open_lines fpath1 = Ok lines1 → open_lines fpath2 = Ok lines2 →
  open_lines fpath = Ok (lines1 ++ lines2) →
  load_testcases fpath1 = Ok cases1 → load_testcases fpath2 = Ok cases2 →
  load_testcases fpath = Ok (cases1 ++ cases2).
Proof.
  unfold load_testcases. intros -> -> ->. cbn [bind]. intros H1 H2.
  rewrite load_lines_app.
  apply (load_lines_prefixed fpath1 fpath []) in H1. simpl in H1.
  rewrite H1. cbn [bind].
  rewrite <- (app_nil_r cases1) at 1.
  by apply (load_lines_prefixed fpath2).
Qed.

(** X8. Every line is decoded, also a line that is not acted on: the first one
    that cannot be decoded ends the loading with its exception, unless the
    lines before it were refused already. *)
Theorem load_testcases_decodes_every_line
  (fpath : string) (before after : list string) (line_str : string)
  (cases : list TestCase) (e : exn) :
  open_lines fpath = Ok (before ++ line_str :: after) →
  load_lines fpath before [] = Ok cases →
  decode line_str = Raised e →
  load_testcases fpath = Raised e.
Proof.
  unfold load_testcases. intros -> Hbefore Hline. cbn [bind].
  rewrite load_lines_app, Hbefore. cbn [bind].
  by rewrite load_lines_cons, Hline.
Qed.

End LoadParts.

Lemma load_testcases_concatenates_witness :
  load_testcases
    (λ fpath, if String.eqb fpath "a.txt" then Ok (take 5 sample_lines)
              else if String.eqb fpath "b.txt" then Ok (drop 5 sample_lines)
              else Ok (take 5 sample_lines ++ drop 5 sample_lines))
    decode_ascii "ab.txt"
  = Ok ([MkTestCase "http://example.com/a" ["Hello"; "World"]] ++
        [MkTestCase "http://example.com/b" []]).
Proof.
  apply (load_testcases_concatenates _ decode_ascii "a.txt" "b.txt" "ab.txt"
           (take 5 sample_lines) (drop 5 sample_lines)); reflexivity.
Defined.

Lemma load_testcases_decodes_every_line_witness :
  load_testcases
    (λ _, Ok ["test_url: http://example.com/a"; "# caf"; "test_contains: x"])
    (λ line_str, if String.eqb line_str "# caf" then Raised undecodable
                 else Ok line_str)
    "sitespecs/example.com.txt"
  = Raised undecodable.
Proof.
  apply (load_testcases_decodes_every_line _ _ "sitespecs/example.com.txt"
           ["test_url: http://example.com/a"] ["test_contains: x"] "# caf"
           [MkTestCase "http://example.com/a" []]); reflexivity.
Defined.
